(** * The language-model prior bridge of [dsr.language_model.language_model]

    A shallow embedding of the class [LModel]: the alignment of the search
    library with the vocabulary of the language model ([set_lib_to_lib]),
    the stateful step [get_lm_prior] with its two local helpers [_prep] and
    [_logit_to_prior], and the recurrent state held in [self.next_state].

    Python values are modelled as follows.
    - [lm_token2idx] (a dict from token strings to integer ids, unpickled at
      construction) is a [gmap string Z]; [d[k]] on a missing key raises
      [KeyError].
    - lists of ids are [list Z]; numpy integer indexing accepts an index [z]
      with [-len <= z < len], a negative one counting from the end, and
      raises [IndexError] otherwise.
    - the logits are floating point numbers; the embedding is parametric in
      the number type and in the two operations the code uses on it
      (subtraction and [np.log] of an integer), so nothing is assumed about
      rounding.
    - a call either returns a value or raises an exception: a small error
      monad. *)

From Stdlib Require Import Reals Lra Ascii String.
From stdpp Require Import gmap strings list fin_maps pretty.

Local Open Scope Z_scope.

(** ** Exceptions and the error monad *)

Inductive PyErr : Type :=
  | KeyError (key : string)
  | IndexError
  | StateShapeError.

Inductive result (A : Type) : Type :=
  | Ok (a : A)
  | Raise (e : PyErr).
Arguments Ok {A} a.
Arguments Raise {A} e.

#[global] Instance result_ret : MRet result := fun A a => Ok a.
#[global] Instance result_bind : MBind result := fun A B f c =>
  match c with
  | Ok a => f a
  | Raise e => Raise e
  end.

Definition raises {A} (c : result A) : Prop := ∃ e, c = Raise e.
Definition returns {A} (c : result A) : Prop := ∃ a, c = Ok a.

(** A list comprehension [[f(x) for x in l]] whose body may raise: the
    elements are evaluated from left to right and the first exception
    aborts the comprehension. *)
Fixpoint comprehension {A B} (f : A → result B) (l : list A) : result (list B) :=
  match l with
  | [] => Ok []
  | x :: l' => y ← f x; ys ← comprehension f l'; Ok (y :: ys)
  end.

(** ** Python values that matter here *)

(** [d[k]] on a dict. *)
Definition getitem (d : gmap string Z) (k : string) : result Z :=
  match d !! k with
  | Some v => Ok v
  | None => Raise (KeyError k)
  end.

(** [str.lower], on ASCII strings: the letters [A]..[Z] are mapped to
    [a]..[z] and every other character is kept. *)
Definition lower_char (c : ascii) : ascii :=
  let n := nat_of_ascii c in
  if ((65 <=? n) && (n <=? 90))%nat then ascii_of_nat (n + 32) else c.

Fixpoint lower (s : string) : string :=
  match s with
  | EmptyString => EmptyString
  | String c s' => String (lower_char c) (lower s')
  end.

(** [c.isupper()] on an ASCII character: one of the letters [A]..[Z]. *)
Definition isupper (c : ascii) : bool :=
  let n := nat_of_ascii c in ((65 <=? n) && (n <=? 90))%nat.

(** [any(c.isupper() for c in s)] *)
Fixpoint has_upper (s : string) : bool :=
  match s with
  | EmptyString => false
  | String c s' => isupper c || has_upper s'
  end.

(** The values the keyword argument [prob_sharing] may be bound to.  The
    guard of the correction is [self.prob_sharing is True], an identity
    test, so the kind of value matters and not only its truth value. *)
Inductive PyVal : Type :=
  | PyNone
  | PyBool (b : bool)
  | PyInt (z : Z)
  | PyStr (s : string).

(** [v is True] *)
Definition is_True (v : PyVal) : bool :=
  match v with
  | PyBool true => true
  | _ => false
  end.


(** numpy integer indexing of an axis of length [len], for an index [z] of
    a signed integer type: a negative index counts from the end, anything
    outside [[-len, len)] raises.  (An index held in an unsigned 64-bit
    array is first cast to the signed type, so that a value from [2^63] on
    wraps to a negative one; statements that depend on an index being
    rejected therefore take the signed range [[-2^63, 2^63)] as a
    hypothesis.) *)
Definition np_index (len : nat) (z : Z) : result nat :=
  if (0 <=? z) && (z <? Z.of_nat len) then Ok (Z.to_nat z)
  else if (- Z.of_nat len <=? z) && (z <? 0) then Ok (Z.to_nat (z + Z.of_nat len))
  else Raise IndexError.

(** [a[z]] for a one-dimensional array *)
Definition np_get {A} (a : list A) (z : Z) : result A :=
  p ← np_index (length a) z;
  match a !! p with
  | Some v => Ok v
  | None => Raise IndexError
  end.

(** ** [LModel.set_lib_to_lib] *)

(** [{lm_idx: i for i, lm_idx in enumerate(dsr2lm)}]: the entries are
    inserted in the order of the list, a later one overwriting an earlier
    one with the same key.  [i] is the index of the head of [l]. *)
Fixpoint enumerate_into (i : nat) (l : list Z) (d : gmap Z nat) : gmap Z nat :=
  match l with
  | [] => d
  | lm_idx :: l' => enumerate_into (S i) l' (<[lm_idx := i]> d)
  end.

Definition set_lib_to_lib (lm_token2idx : gmap string Z)
    (dsr_function_set : list string) (dsr_n_input_var : Z)
    : result (list Z * gmap Z nat) :=
  terminals ← comprehension (fun _ => getitem lm_token2idx "TERMINAL")
                            (seq 0 (Z.to_nat dsr_n_input_var));
  functions ← comprehension (fun func => getitem lm_token2idx (lower func))
                            dsr_function_set;
  let dsr2lm := terminals ++ functions in
  let lm2dsr := enumerate_into 0 dsr2lm ∅ in
  Ok (dsr2lm, lm2dsr).

(** ** The class [LModel] *)

Section Bridge.

(** The number type of the logits, with [x - y] and [np.log(n)]. *)
Context {num : Type}.
Variable fsub : num → num → num.
Variable np_log : Z → num.

(** The loaded sequence model, [self.lsess.run([last_state, logits], feed)]
    on the graph of [self.lmodel]: it is given the row of model token ids
    fed as [x] and the state fed as [initial_state], if one is fed, and
    gives back the last state and the logits.  The logits have shape
    [(1, batch size, lm size)]; the embedding keeps the batch and the
    vocabulary axes, the leading axis of length one being indexed by [:]
    and by [0] only. *)
Context {RecurrentState : Type}.
Variable sess_run :
  list Z → option RecurrentState → result (RecurrentState * list (list num)).

Record LModel : Type := mkLModel {
  dsr_n_input_var : Z;
  prob_sharing : PyVal;
  lm_token2idx : gmap string Z;
  dsr2lm : list Z;
  lm2dsr : gmap Z nat;
  next_state : option RecurrentState
}.

(** [LModel.__init__]: the vocabulary is the unpickled [saved_lmodel_lib]. *)
Definition __init__ (dsr_function_set : list string) (dsr_n_input_var : Z)
    (saved_lmodel_lib : gmap string Z) (prob_sharing : PyVal) : result LModel :=
  tables ← set_lib_to_lib saved_lmodel_lib dsr_function_set dsr_n_input_var;
  Ok {| dsr_n_input_var := dsr_n_input_var;
        prob_sharing := prob_sharing;
        lm_token2idx := saved_lmodel_lib;
        dsr2lm := tables.1;
        lm2dsr := tables.2;
        next_state := None |}.

(** [_prep]: [np.array(self.dsr2lm)[next_input]] *)
Definition _prep (self : LModel) (next_input : list Z) : result (list Z) :=
  comprehension (np_get (dsr2lm self)) next_input.

(** [logit[:,:,t] = logit[:,:,t] - np.log(n)] on one batch row.  The index
    is checked against the length of the row; with an empty batch there
    is no row, and nothing is checked, where numpy still checks the index
    against the vocabulary axis. *)
Definition share_row (t n : Z) (row : list num) : result (list num) :=
  p ← np_index (length row) t;
  Ok (alter (fun v => fsub v (np_log n)) p row).

(** [logit[0,:,self.dsr2lm]] transposed, on one batch row *)
Definition gather_row (ids : list Z) (row : list num) : result (list num) :=
  comprehension (np_get row) ids.

Definition _logit_to_prior (self : LModel) (logit : list (list num))
    : result (list (list num)) :=
  logit' ← (if is_True (prob_sharing self) then
              t ← getitem (lm_token2idx self) "TERMINAL";
              comprehension (share_row t (dsr_n_input_var self)) logit
            else Ok logit);
  comprehension (gather_row (dsr2lm self)) logit'.

Definition set_next_state (self : LModel) (st : option RecurrentState) : LModel :=
  {| dsr_n_input_var := dsr_n_input_var self;
     prob_sharing := prob_sharing self;
     lm_token2idx := lm_token2idx self;
     dsr2lm := dsr2lm self;
     lm2dsr := lm2dsr self;
     next_state := st |}.

(** [LModel.get_lm_prior]: the object after the call, and what the call
    returns or raises.  [self.next_state] is assigned as soon as the
    session has run, before the logits are turned into the prior. *)
Definition get_lm_prior (self : LModel) (next_input : list Z)
    : LModel * result (list (list num)) :=
  match _prep self next_input with
  | Raise e => (self, Raise e)
  | Ok x =>
      match sess_run x (next_state self) with
      | Raise e => (self, Raise e)
      | Ok (last_state, lm_logit) =>
          let self' := set_next_state self (Some last_state) in
          (self', _logit_to_prior self' lm_logit)
      end
  end.

(** Two objects that differ at most in the held state. *)
Definition same_tables (a b : LModel) : Prop :=
  dsr_n_input_var a = dsr_n_input_var b ∧ prob_sharing a = prob_sharing b ∧
  lm_token2idx a = lm_token2idx b ∧ dsr2lm a = dsr2lm b ∧ lm2dsr a = lm2dsr b.


(** Modelled from the spec: [resetEpisode], which the class does not
    define.  The recurrent state is absent at the start of an episode, so
    a reset drops the held state. *)
Definition resetEpisode (self : LModel) : LModel := set_next_state self None.

(** The objects a freshly constructed [fresh] can become. *)
Inductive reachable (fresh : LModel) : LModel → Prop :=
  | reach_fresh : reachable fresh fresh
  | reach_step self next_input :
      reachable fresh self → reachable fresh (get_lm_prior self next_input).1
  | reach_reset self :
      reachable fresh self → reachable fresh (resetEpisode self).

End Bridge.

(** ** Groups of search tokens *)

(** The number of search indices whose entry of the alignment table is the
    model id [m]: the size of the group of [m]. *)
Definition group_size (dsr2lm : list Z) (m : Z) : nat :=
  length (filter (λ id, id = m) dsr2lm).

(** The correction by group size, on one batch row: every search token
    whose id [id] has the raw logit [L] gets [L - log(k)], with [k] the
    size of the group of [id]. *)
Definition shared_by_group_size {num : Type} (fsub : num → num → num)
    (np_log : Z → num) (dsr2lm : list Z) (row prow : list num) : Prop :=
  ∀ i id L, dsr2lm !! i = Some id → np_get row id = Ok L →
    prow !! i = Some (fsub L (np_log (Z.of_nat (group_size dsr2lm id)))).

(** ** The sequence model *)

Section Adapter.

Context {num : Type} {cell_state : Type}.

(** The model's default initial state of one batch row, and the model on
    one batch row: from the token id and the state of the row to the next
    state and the logits of the row. *)
Variable zero_state : cell_state.
Variable cell : Z → cell_state → cell_state * list num.

(** Modelled from the spec: the sequence model [DynRNNLanguageModel] and the
    session that runs it, which are not among the sources.  The state
    bundle is shaped per batch row; an absent state stands for the
    model's own default initial state; a held state of another batch size
    than the input is refused with [StateShapeError]. *)
Definition step (ids : list Z) (st : option (list cell_state))
    : result (list cell_state * list (list num)) :=
  match st with
  | None =>
      let out := (λ t, cell t zero_state) <$> ids in
      Ok (fst <$> out, snd <$> out)
  | Some held =>
      if decide (length held = length ids) then
        let out := zip_with cell ids held in
        Ok (fst <$> out, snd <$> out)
      else Raise StateShapeError
  end.

End Adapter.

(** ** Real-valued logits *)

(** The operations on logits read over the real numbers.  [np.log] is
    [ln] on positive integers; numpy gives [-inf] at [0] and [nan] below,
    which have no counterpart here, so this reading is only used with a
    positive argument. *)
Definition Rlog (n : Z) : R := ln (IZR n).

(** ** Concrete objects *)

(** The vocabulary and the library of the worked example: two input
    variables and the functions [add] and [sin], with the logits [2], [1]
    and [1/2] for the three model tokens at every step.  The state of a
    batch row counts the steps taken. *)
Definition ex_vocab : gmap string Z :=
  {[ "TERMINAL"%string := 0%Z; "add"%string := 1%Z; "sin"%string := 2%Z ]}.

Definition ex_functions : list string := ["add"; "sin"]%string.

Definition ex_cell (t : Z) (s : nat) : nat * list R := (S s, [2; 1; / 2]%R).

Definition ex_run (ids : list Z) (st : option (list nat))
    : result (list nat * list (list R)) :=
  step 0%nat ex_cell ids st.

Definition ex_fresh (n : Z) (ps : PyVal) : @LModel (list nat) :=
  {| dsr_n_input_var := n;
     prob_sharing := ps;
     lm_token2idx := ex_vocab;
     dsr2lm := replicate (Z.to_nat n) 0%Z ++ [1; 2]%Z;
     lm2dsr := enumerate_into 0 (replicate (Z.to_nat n) 0%Z ++ [1; 2]%Z) ∅;
     next_state := None |}.

(** A library in which two function tokens differ by case only, with one
    input variable. *)
Definition cx_vocab : gmap string Z :=
  {[ "TERMINAL"%string := 0%Z; "sin"%string := 1%Z ]}.

Definition cx_functions : list string := ["sin"; "Sin"]%string.

Definition cx_cell (t : Z) (s : nat) : nat * list R := (S s, [2; 1]%R).

Definition cx_run (ids : list Z) (st : option (list nat))
    : result (list nat * list (list R)) :=
  step 0%nat cx_cell ids st.

Definition cx_fresh : @LModel (list nat) :=
  {| dsr_n_input_var := 1;
     prob_sharing := PyBool true;
     lm_token2idx := cx_vocab;
     dsr2lm := [0; 1; 1]%Z;
     lm2dsr := enumerate_into 0 [0; 1; 1]%Z ∅;
     next_state := None |}.

(** The keys at which [set_lib_to_lib] can read the vocabulary. *)
Definition readable_key (kv : string * Z) : Prop :=
  kv.1 = "TERMINAL"%string ∨ lower kv.1 = kv.1.

#[global] Instance readable_key_dec (kv : string * Z) : Decision (readable_key kv).
Proof. unfold readable_key. apply _. Defined.

(** * The Pareto filter of [dsr.logeval]

    [LogEval._apply_pareto_filter] on the rows of a data frame.  A row is
    any type with the two columns the filter reads, [r] and [complexity];
    their values are Python numbers compared with [>=], which is taken as
    a parameter (for floats it is [False] whenever an operand is [nan]).
    [df.sort_values(by=["complexity"], ascending=True)] is a parameter as
    well: pandas sorts with a quicksort, which fixes the order of the rows
    of equal complexity in no documented way. *)

Section Pareto.

Context {Row V : Type}.
Variable r : Row → V.
Variable complexity : Row → V.
Variable ge : V → V → bool.
Variable sort_values : list Row → list Row.

(** The test of the loop on the row at [index], [filtered] being the rows
    appended so far: [(filtered_df["r"] >= row["r"]).any()] is [existsb]. *)
Definition pareto_keep (filtered : list Row) (index : nat) (row : Row) : bool :=
  negb (existsb (λ f, ge (r f) (r row)) filtered)
  && negb (existsb (λ f, ge (complexity f) (complexity row)) filtered)
  || (index =? 0)%nat.

(** The loop over [df.iterrows()], from the row at [index] on. *)
Fixpoint pareto_rows (index : nat) (rows filtered : list Row) : list Row :=
  match rows with
  | [] => filtered
  | row :: rows' =>
      pareto_rows (S index) rows'
        (if pareto_keep filtered index row then filtered ++ [row] else filtered)
  end.

Definition _apply_pareto_filter (df : list Row) : list Row :=
  pareto_rows 0 (sort_values df) [].

(** Every row stands strictly below every later row, in both columns. *)
Definition strictly_improving (rows : list Row) : Prop :=
  ∀ i j a b, (i < j)%nat → rows !! i = Some a → rows !! j = Some b →
    ge (r a) (r b) = false ∧ ge (complexity a) (complexity b) = false.

End Pareto.

(** Insertion sort by the second component, for concrete frames of pairs
    [(r, complexity)] of integers. *)
Fixpoint insert_by_complexity (row : Z * Z) (rows : list (Z * Z)) : list (Z * Z) :=
  match rows with
  | [] => [row]
  | row' :: rows' =>
      if (row.2 <=? row'.2)%Z then row :: rows
      else row' :: insert_by_complexity row rows'
  end.

Definition sort_by_complexity (rows : list (Z * Z)) : list (Z * Z) :=
  foldr insert_by_complexity [] rows.

(** A vocabulary without ['TERMINAL'], for a library without input
    variables. *)
Definition nt_vocab : gmap string Z := {[ "add"%string := 0%Z; "sin"%string := 1%Z ]}.

Definition nt_fresh : @LModel (list nat) :=
  {| dsr_n_input_var := 0;
     prob_sharing := PyBool true;
     lm_token2idx := nt_vocab;
     dsr2lm := [0; 1]%Z;
     lm2dsr := enumerate_into 0 [0; 1]%Z ∅;
     next_state := None |}.

(** The function names of [ex_functions] as a caller may spell them. *)
Definition mc_functions : list string := ["Add"; "SIN"]%string.




(** A frame of rows [(r, complexity)]. *)
Definition ex_frame : list (Z * Z) := [(5, 3); (2, 1); (9, 3); (1, 2); (7, 4)]%Z.

Local Close Scope Z_scope.

(** * The command line of a run, in [dsr.logeval]

    [LogEval._get_cmd] and [LogEval._get_correct_type], on ASCII texts.
    The string methods they use are embedded with them: [strip], [split]
    with a separator, the tests [isdigit] and [isalpha], and [int] and
    [float] on a text (without a bound on the number of digits).  The
    float read from a text is kept as its sign, its digits and the number
    of digits after the point: Python rounds that decimal to the nearest
    double. *)

Definition in_range (lo hi : nat) (c : ascii) : bool :=
  let n := nat_of_ascii c in (lo <=? n) && (n <=? hi).

(** [c.isdigit()], [c.isalpha()] and [c.isspace()] on ASCII characters. *)
Definition isdigit (c : ascii) : bool := in_range 48 57 c.
Definition isalpha (c : ascii) : bool := in_range 65 90 c || in_range 97 122 c.
Definition isspace (c : ascii) : bool := in_range 9 13 c || in_range 28 32 c.

(** The white space that [int()] and [float()] skip at both ends. *)
Definition c_isspace (c : ascii) : bool := in_range 9 13 c || in_range 32 32 c.

(** [any(p(c) for c in s)] *)
Fixpoint any_char (p : ascii → bool) (s : string) : bool :=
  match s with
  | EmptyString => false
  | String c s' => p c || any_char p s'
  end.

Definition is_empty (s : string) : bool :=
  match s with EmptyString => true | _ => false end.

Fixpoint lstrip (p : ascii → bool) (s : string) : string :=
  match s with
  | EmptyString => EmptyString
  | String c s' => if p c then lstrip p s' else s
  end.

Fixpoint rstrip (p : ascii → bool) (s : string) : string :=
  match s with
  | EmptyString => EmptyString
  | String c s' =>
      let t := rstrip p s' in
      if p c && is_empty t then EmptyString else String c t
  end.

(** [s.strip()] *)
Definition strip (s : string) : string := rstrip isspace (lstrip isspace s).

(** [s.split(sep)] for a separator that is not empty: [cur] is the piece
    being read and [skip] the number of characters of a separator still
    to pass. *)
Fixpoint split_go (sep : string) (skip : nat) (cur s : string) : list string :=
  match s with
  | EmptyString => [cur]
  | String c s' =>
      match skip with
      | S k => split_go sep k cur s'
      | O =>
          if String.prefix sep s
          then cur :: split_go sep (String.length sep - 1) EmptyString s'
          else split_go sep 0 (cur +:+ String c EmptyString) s'
      end
  end.

Definition split (s sep : string) : list string := split_go sep 0 EmptyString s.

Definition digit_value (c : ascii) : N := N.of_nat (nat_of_ascii c - 48).

(** A run of decimal digits in which single underscores may stand between
    two digits: its value, continuing [acc], and the number of its digits. *)
Fixpoint digits_go (acc : N) (count : nat) (last_digit : bool) (s : string)
    : option (N * nat) :=
  match s with
  | EmptyString => if last_digit then Some (acc, count) else None
  | String c s' =>
      if isdigit c then digits_go (10 * acc + digit_value c) (S count) true s'
      else if Ascii.eqb c "_" && last_digit then digits_go acc count false s'
      else None
  end.

Definition c_strip (s : string) : string := rstrip c_isspace (lstrip c_isspace s).

(** The sign of a numeral and what follows it. *)
Definition cut_sign (s : string) : bool * string :=
  match s with
  | String "+" s' => (false, s')
  | String "-" s' => (true, s')
  | _ => (false, s)
  end.

(** [int(s)]; [None] stands for [ValueError]. *)
Definition int_of_str (s : string) : option Z :=
  let '(neg, body) := cut_sign (c_strip s) in
  '(v, _) ← digits_go 0 0 false body;
  Some (if neg then (- Z.of_N v)%Z else Z.of_N v).

(** The text before the first ["."] and, if there is one, the text after. *)
Fixpoint cut_at_dot (s : string) : string * option string :=
  match s with
  | EmptyString => (EmptyString, None)
  | String c s' =>
      if Ascii.eqb c "." then (EmptyString, Some s')
      else let '(a, b) := cut_at_dot s' in (String c a, b)
  end.

Inductive CmdVal : Type :=
  | CStr (s : string)
  | CInt (z : Z)
  | CFloat (neg : bool) (mantissa : N) (frac_digits : nat).

(** [float(s)] for a text without letters, so that no exponent, [inf] or
    [nan] can occur. *)
Definition float_of_str (s : string) : option CmdVal :=
  let '(neg, body) := cut_sign (c_strip s) in
  match cut_at_dot body with
  | (ip, None) => '(v, _) ← digits_go 0 0 false ip; Some (CFloat neg v 0)
  | (ip, Some fp) =>
      if is_empty ip then '(v, k) ← digits_go 0 0 false fp; Some (CFloat neg v k)
      else
        '(v, _) ← digits_go 0 0 false ip;
        if is_empty fp then Some (CFloat neg v 0)
        else '(w, k) ← digits_go v 0 false fp; Some (CFloat neg w k)
  end.

Definition _get_correct_type (token : string) : option CmdVal :=
  if any_char isdigit token then
    if any_char isalpha token then Some (CStr token)
    else if any_char (λ c, Ascii.eqb c ".") token then float_of_str token
    else CInt <$> int_of_str token
  else Some (CStr token).

Definition cmd_setting (token : string) : list string :=
  let token := strip token in
  if any_char (λ c, Ascii.eqb c "=") token then split token "=" else split token " ".


Definition cmd_warning : string := "Missing command file!".

(** The loop over the tokens; the boolean tells that an exception ended
    it, with the settings made until then. *)
Fixpoint cmd_loop (tokens : list string) (params : gmap string CmdVal)
    : gmap string CmdVal * bool :=
  match tokens with
  | [] => (params, false)
  | token :: tokens' =>
      match cmd_setting token with
      | key :: value :: _ =>
          match _get_correct_type value with
          | Some v => cmd_loop tokens' (<[key := v]> params)
          | None => (params, true)
          end
      | _ => (params, true)
      end
  end.

(** [LogEval._get_cmd]: [cmd_file] is what [readlines()] gives for the
    file at [self.path["cmd"]], or [None] when it cannot be read; the
    result is [params] and [self.warnings] after the call. *)
Definition _get_cmd (cmd_file : option (list string)) (warnings : list string)
    : option (gmap string CmdVal) * list string :=
  match cmd_file with
  | Some (line :: _) =>
      match cmd_loop (tail (split line "--")) ∅ with
      | (params, false) =>
          (Some (if decide (is_Some (params !! "mc"%string)) then params
                 else <["mc"%string := CInt 1]> params),
           warnings)
      | (params, true) => (Some params, warnings ++ [cmd_warning])
      end
  | _ => (None, warnings ++ [cmd_warning])
  end.

Fixpoint all_char (p : ascii → bool) (s : string) : bool :=
  match s with
  | EmptyString => true
  | String c s' => p c && all_char p s'
  end.

(** No two minus signs in a row, and none at the end. *)
Fixpoint dash_safe (s : string) : bool :=
  match s with
  | EmptyString => true
  | String c s' =>
      if Ascii.eqb c "-"
      then match s' with
           | EmptyString => false
           | String c' _ => negb (Ascii.eqb c' "-") && dash_safe s'
           end
      else dash_safe s'
  end.

(** A text that can stand as a key or a value of a setting written
    [key=value]: no ["="], no white space in front, and for a value
    none at the end either. *)
Definition starts_clean (s : string) : bool :=
  match s with
  | EmptyString => true
  | String c _ => negb (isspace c)
  end.

(** The text is not empty and its last character fails [p]. *)
Fixpoint ends_without (p : ascii → bool) (s : string) : bool :=
  match s with
  | EmptyString => false
  | String c EmptyString => negb (p c)
  | String _ s' => ends_without p s'
  end.

Definition ends_clean (s : string) : bool := ends_without isspace s.

Definition no_eq (s : string) : bool := negb (any_char (λ c, Ascii.eqb c "=") s).

(** The text of one setting, with the white space [ws] after it. *)
Definition setting_text (key value ws : string) : string :=
  key +:+ "=" +:+ value +:+ ws.

Fixpoint settings_text (settings : list (string * string * string)) : string :=
  match settings with
  | [] => EmptyString
  | (key, value, ws) :: settings' =>
      "--" +:+ setting_text key value ws +:+ settings_text settings'
  end.

(** The value of a run of digits, continuing [acc]. *)
Fixpoint digits_value (acc : N) (s : string) : N :=
  match s with
  | EmptyString => acc
  | String c s' => digits_value (10 * acc + digit_value c) s'
  end.

(** One setting of a command line: its key, the text of its value, the
    white space after it, and the value read from the text. *)
Record Setting : Type := mkSetting {
  s_key : string;
  s_text : string;
  s_space : string;
  s_value : CmdVal
}.

Definition well_formed (s : Setting) : Prop :=
  starts_clean (s_key s) = true ∧ no_eq (s_key s) = true ∧
  dash_safe (s_key s) = true ∧
  ends_clean (s_text s) = true ∧ no_eq (s_text s) = true ∧
  dash_safe (s_text s) = true ∧
  all_char isspace (s_space s) = true ∧
  _get_correct_type (s_text s) = Some (s_value s).

Definition line_of (prog : string) (settings : list Setting) : string :=
  prog +:+ settings_text ((λ s, (s_key s, s_text s, s_space s)) <$> settings).

Definition params_of (settings : list Setting) : gmap string CmdVal :=
  foldl (λ params s, <[s_key s := s_value s]> params) ∅ settings.

(** The loop raises at the token: the setting has no value, an
    [IndexError], or [int] or [float] refuses its value, a [ValueError]. *)
Definition token_raises (token : string) : Prop :=
  match cmd_setting token with
  | _ :: value :: _ => _get_correct_type value = None
  | _ => True
  end.

(** The characters of a decimal numeral as [str] writes an integer. *)
Definition numeral_char (c : ascii) : bool := isdigit c || Ascii.eqb c "-".

(** The settings of the command line
    [dsr config.json --mc=10 --lr=0.5 --name=Nguyen-1], which ends its
    line. *)
Definition ex_settings : list Setting :=
  [ mkSetting "mc" "10" " " (CInt 10);
    mkSetting "lr" "0.5" " " (CFloat false 5 1);
    mkSetting "name" "Nguyen-1" (String "010" EmptyString) (CStr "Nguyen-1") ].

Local Open Scope Z_scope.

(** * Properties *)

(** ** The error monad *)

Lemma bind_Ok {A B} (c : result A) (k : A → result B) (b : B) :
  c ≫= k = Ok b ↔ ∃ a, c = Ok a ∧ k a = Ok b.
Proof.
  destruct c as [a|e]; simpl.
  - split; [eauto | intros (a' & [= <-] & Hk); exact Hk].
  - split; [discriminate | intros (a' & [=] & _)].
Qed.

Lemma bind_Raise {A B} (c : result A) (k : A → result B) (e : PyErr) :
  c ≫= k = Raise e ↔ c = Raise e ∨ ∃ a, c = Ok a ∧ k a = Raise e.
Proof.
  destruct c as [a|e']; simpl.
  - split; [eauto | intros [[=] | (a' & [= <-] & Hk)]; exact Hk].
  - split; [intros [= ->]; by left | intros [[= ->] | (a' & [=] & _)]; done].
Qed.

Lemma returns_or_raises {A} (c : result A) : returns c ∨ raises c.
Proof. destruct c; [left | right]; eexists; reflexivity. Qed.

Lemma returns_not_raises {A} (c : result A) : returns c ↔ ¬ raises c.
Proof.
  split.
  - intros [a ->] [e [=]].
  - intros H. destruct c as [a|e]; [by exists a | destruct H; by exists e].
Qed.

Lemma comprehension_Ok {A B} (f : A → result B) (l : list A) (ys : list B) :
  comprehension f l = Ok ys ↔ Forall2 (λ x y, f x = Ok y) l ys.
Proof.
  revert ys. induction l as [|x l IH]; intros ys; simpl.
  - split; [intros [= <-]; constructor | intros H; by inversion H].
  - rewrite bind_Ok. split.
    + intros (y & Hy & H). apply bind_Ok in H as (ys' & Hys & [= <-]).
      constructor; [done | by apply IH].
    + intros H. inversion H as [|? y ? ys' Hy Hys]; subst.
      exists y. split; [done |]. apply bind_Ok. exists ys'. by rewrite IH.
Qed.

Lemma comprehension_cons {A B} (f : A → result B) (x : A) (l : list A) :
  comprehension f (x :: l) = (y ← f x; ys ← comprehension f l; Ok (y :: ys)).
Proof. reflexivity. Qed.

Lemma comprehension_Raise {A B} (f : A → result B) (l : list A) (e : PyErr) :
  comprehension f l = Raise e → ∃ x, x ∈ l ∧ f x = Raise e.
Proof.
  induction l as [|x l IH]; simpl; [discriminate |].
  rewrite bind_Raise. intros [H | (y & Hy & H)].
  - exists x. split; [left | done].
  - apply bind_Raise in H as [H | (ys & _ & [=])].
    destruct (IH H) as (x' & Hin & Hx'). exists x'. split; [by right | done].
Qed.

Lemma comprehension_returns {A B} (f : A → result B) (l : list A) :
  returns (comprehension f l) ↔ Forall (λ x, returns (f x)) l.
Proof.
  induction l as [|x l IH]; simpl.
  - split; [constructor | by exists []].
  - split.
    + intros [ys H]. apply bind_Ok in H as (y & Hy & H).
      apply bind_Ok in H as (ys' & Hys & _).
      constructor; [by exists y | apply IH; by exists ys'].
    + intros H. inversion H as [|? ? [y Hy] Hl]; subst.
      apply IH in Hl as [ys Hys]. exists (y :: ys). by rewrite Hy, Hys.
Qed.

Lemma comprehension_length {A B} (f : A → result B) (l : list A) (ys : list B) :
  comprehension f l = Ok ys → length ys = length l.
Proof. rewrite comprehension_Ok. intros H. symmetry. by eapply Forall2_length. Qed.

Lemma comprehension_lookup {A B} (f : A → result B) (l : list A) (ys : list B)
    (i : nat) (x : A) :
  comprehension f l = Ok ys → l !! i = Some x → ∃ y, ys !! i = Some y ∧ f x = Ok y.
Proof.
  rewrite comprehension_Ok. intros H Hx.
  destruct (Forall2_lookup_l _ _ _ _ _ H Hx) as (y & Hy & Hf). eauto.
Qed.

(** ** Dict and array access *)

Local Close Scope Z_scope.

Lemma getitem_Ok (d : gmap string Z) (k : string) (v : Z) :
  getitem d k = Ok v ↔ d !! k = Some v.
Proof. unfold getitem. destruct (d !! k); split; congruence. Qed.

Lemma getitem_Raise (d : gmap string Z) (k : string) (e : PyErr) :
  getitem d k = Raise e ↔ d !! k = None ∧ e = KeyError k.
Proof.
  unfold getitem. destruct (d !! k); split; try congruence.
  - intros [[=] _].
  - intros [= <-]. done.
  - intros [_ ->]. done.
Qed.

Lemma np_index_Ok (len : nat) (z : Z) (p : nat) :
  np_index len z = Ok p ↔
    (0 ≤ z < Z.of_nat len ∧ p = Z.to_nat z)%Z ∨
    (- Z.of_nat len ≤ z < 0 ∧ p = Z.to_nat (z + Z.of_nat len))%Z.
Proof.
  unfold np_index.
  destruct (Z.leb_spec 0 z), (Z.ltb_spec z (Z.of_nat len)),
    (Z.leb_spec (- Z.of_nat len) z),
    (Z.ltb_spec z 0); simpl; split;
    try (intros [= <-]); try (intros [[? ->] | [? ->]]); try lia; try discriminate; auto;
    try (left; split; [lia | reflexivity]); try (right; split; [lia | reflexivity]).
Qed.

Lemma np_index_lt (len : nat) (z : Z) (p : nat) : np_index len z = Ok p → p < len.
Proof. rewrite np_index_Ok. lia. Qed.

Lemma np_index_returns (len : nat) (z : Z) :
  returns (np_index len z) ↔ (- Z.of_nat len ≤ z < Z.of_nat len)%Z.
Proof.
  split.
  - intros [p Hp]. apply np_index_Ok in Hp. lia.
  - intros Hz. destruct (decide (0 ≤ z)%Z).
    + exists (Z.to_nat z). apply np_index_Ok. left. split; [lia | done].
    + exists (Z.to_nat (z + Z.of_nat len)). apply np_index_Ok. right. split; [lia | done].
Qed.

Lemma np_index_Raise (len : nat) (z : Z) (e : PyErr) :
  np_index len z = Raise e → e = IndexError.
Proof. unfold np_index. repeat case_match; congruence. Qed.

Lemma np_get_Ok {A} (a : list A) (z : Z) (v : A) :
  np_get a z = Ok v ↔ ∃ p, np_index (length a) z = Ok p ∧ a !! p = Some v.
Proof.
  unfold np_get. rewrite bind_Ok. split; intros (p & Hp & H); exists p; split; try done.
  - destruct (a !! p); congruence.
  - by rewrite H.
Qed.

Lemma np_get_returns {A} (a : list A) (z : Z) :
  returns (np_get a z) ↔ (- Z.of_nat (length a) ≤ z < Z.of_nat (length a))%Z.
Proof.
  rewrite <- np_index_returns. split.
  - intros [v Hv]. apply np_get_Ok in Hv as (p & Hp & _). by exists p.
  - intros [p Hp]. destruct (lookup_lt_is_Some_2 a p (np_index_lt _ _ _ Hp)) as [v Hv].
    exists v. apply np_get_Ok. eauto.
Qed.

Lemma np_get_Raise {A} (a : list A) (z : Z) (e : PyErr) :
  np_get a z = Raise e → e = IndexError.
Proof.
  unfold np_get. rewrite bind_Raise. intros [H | (p & _ & H)].
  - by eapply np_index_Raise.
  - destruct (a !! p); congruence.
Qed.

(** ** The two tables of [set_lib_to_lib] *)

Lemma enumerate_into_snoc (i : nat) (l : list Z) (x : Z) (d : gmap Z nat) :
  enumerate_into i (l ++ [x]) d = <[x := i + length l]> (enumerate_into i l d).
Proof.
  revert i d. induction l as [|y l IH]; intros i d; simpl.
  - by rewrite Nat.add_0_r.
  - rewrite IH. f_equal. lia.
Qed.

(** The dict comprehension keeps, for each key, the last index at which
    the key occurs. *)
Lemma enumerate_into_lookup (l : list Z) (m : Z) (i : nat) :
  enumerate_into 0 l ∅ !! m = Some i ↔
    l !! i = Some m ∧ ∀ j, l !! j = Some m → j ≤ i.
Proof.
  revert i. induction l as [|x l IH] using rev_ind; intros i.
  - simpl. rewrite lookup_empty. split; [discriminate | intros [[=] _]].
  - rewrite enumerate_into_snoc, lookup_insert. simpl. case_decide as Hx.
    + subst x. split.
      * intros [= <-]. split.
        -- by rewrite lookup_app_r, Nat.sub_diag.
        -- intros j Hj. apply lookup_lt_Some in Hj. rewrite length_app in Hj.
           simpl in Hj. lia.
      * intros [Hi Hmax]. f_equal.
        assert (length l ≤ i) by (apply Hmax; by rewrite lookup_app_r, Nat.sub_diag).
        apply lookup_lt_Some in Hi. rewrite length_app in Hi. simpl in Hi. lia.
    + assert (Hl : ∀ j, (l ++ [x]) !! j = Some m ↔ l !! j = Some m).
      { intros j. destruct (decide (j < length l)) as [Hlt|Hge].
        - by rewrite lookup_app_l.
        - rewrite lookup_app_r, (lookup_ge_None_2 l j) by lia.
          destruct (j - length l) as [|k]; simpl; [| by rewrite lookup_nil].
          split; [intros [= ->]; done | discriminate]. }
      rewrite IH, Hl. split; intros [Hi Hmax]; (split; [done |]);
        intros j Hj; apply Hmax; by apply Hl.
Qed.

Lemma set_lib_to_lib_Ok (vocab : gmap string Z) (fs : list string) (n : Z)
    (d : list Z) (l : gmap Z nat) :
  set_lib_to_lib vocab fs n = Ok (d, l) ↔
    ∃ ts ids,
      comprehension (λ _, getitem vocab "TERMINAL") (seq 0 (Z.to_nat n)) = Ok ts ∧
      comprehension (λ func, getitem vocab (lower func)) fs = Ok ids ∧
      d = ts ++ ids ∧ l = enumerate_into 0 d ∅.
Proof.
  unfold set_lib_to_lib. rewrite bind_Ok. split.
  - intros (ts & Hts & H). apply bind_Ok in H as (ids & Hids & [= <- <-]).
    by exists ts, ids.
  - intros (ts & ids & Hts & Hids & -> & ->). exists ts. split; [done |].
    apply bind_Ok. by exists ids.
Qed.

(** What the alignment table holds after a successful construction. *)
Lemma set_lib_to_lib_table (vocab : gmap string Z) (fs : list string) (n : Z)
    (d : list Z) (l : gmap Z nat) :
  set_lib_to_lib vocab fs n = Ok (d, l) →
  length d = Z.to_nat n + length fs ∧
  (∀ i, i < Z.to_nat n →
     ∃ t, vocab !! "TERMINAL" = Some t ∧ d !! i = Some t) ∧
  (∀ j func, fs !! j = Some func →
     ∃ id, vocab !! lower func = Some id ∧ d !! (Z.to_nat n + j) = Some id).
Proof.
  rewrite set_lib_to_lib_Ok. intros (ts & ids & Hts & Hids & -> & _).
  pose proof (comprehension_length _ _ _ Hts) as Hlt. rewrite length_seq in Hlt.
  pose proof (comprehension_length _ _ _ Hids) as Hli.
  split; [rewrite length_app; lia |]. split.
  - intros i Hi.
    destruct (comprehension_lookup _ _ _ i i Hts) as (t & Ht & Hg).
    { by apply lookup_seq_lt. }
    exists t. split; [by apply getitem_Ok |]. rewrite lookup_app_l by lia. done.
  - intros j func Hj.
    destruct (comprehension_lookup _ _ _ _ _ Hids Hj) as (id & Hid & Hg).
    exists id. split; [by apply getitem_Ok |].
    rewrite lookup_app_r by lia. rewrite <- Hlt. by replace (_ + j - _) with j by lia.
Qed.

(** Construction fails exactly when a search token has no entry, and then
    with the [KeyError] of a missing key. *)
Lemma set_lib_to_lib_Raise (vocab : gmap string Z) (fs : list string) (n : Z)
    (e : PyErr) :
  set_lib_to_lib vocab fs n = Raise e →
  ∃ k, e = KeyError k ∧ vocab !! k = None ∧
       ((0 < n)%Z ∧ k = "TERMINAL"%string ∨ ∃ func, func ∈ fs ∧ k = lower func).
Proof.
  unfold set_lib_to_lib. rewrite bind_Raise. intros [H | (ts & _ & H)].
  - apply comprehension_Raise in H as (i & Hi & H).
    apply getitem_Raise in H as [Hk ->]. exists "TERMINAL"%string.
    split; [done |]. split; [done |]. left. split; [| done].
    destruct (Z.to_nat n) eqn:E; [by apply elem_of_nil in Hi | lia].
  - apply bind_Raise in H as [H | (ids & _ & [=])].
    apply comprehension_Raise in H as (func & Hin & H).
    apply getitem_Raise in H as [Hk ->]. exists (lower func). eauto 6.
Qed.

Lemma set_lib_to_lib_raises (vocab : gmap string Z) (fs : list string) (n : Z) :
  raises (set_lib_to_lib vocab fs n) ↔
    ((0 < n)%Z ∧ vocab !! "TERMINAL" = None) ∨
    (∃ func, func ∈ fs ∧ vocab !! lower func = None).
Proof.
  split.
  - intros [e He]. apply set_lib_to_lib_Raise in He as (k & _ & Hk & [[Hn ->] | (f & Hf & ->)]).
    + by left.
    + right. eauto.
  - intros Hmiss. destruct (returns_or_raises (set_lib_to_lib vocab fs n))
      as [[[d l] Hok] | Hr]; [exfalso | done].
    apply set_lib_to_lib_table in Hok as (_ & Ht & Hf).
    destruct Hmiss as [[Hn Hnone] | (func & Hin & Hnone)].
    + destruct (Ht 0) as (t & Hsome & _); [lia | congruence].
    + apply list_elem_of_lookup in Hin as [j Hj].
      destruct (Hf j func Hj) as (id & Hsome & _). congruence.
Qed.

(** The table is the id of ['TERMINAL'], once per input variable, followed
    by the ids of the functions. *)
Lemma set_lib_to_lib_shape (vocab : gmap string Z) (fs : list string) (n : Z)
    (d : list Z) (l : gmap Z nat) (t : Z) :
  set_lib_to_lib vocab fs n = Ok (d, l) → vocab !! "TERMINAL" = Some t →
  ∃ ids, d = replicate (Z.to_nat n) t ++ ids ∧
         Forall2 (λ func id, vocab !! lower func = Some id) fs ids.
Proof.
  rewrite set_lib_to_lib_Ok. intros (ts & ids & Hts & Hids & -> & _) Ht.
  exists ids. split.
  - f_equal. apply comprehension_Ok in Hts.
    pose proof (Forall2_length _ _ _ Hts) as Hlen. rewrite length_seq in Hlen.
    apply list_eq. intros i. destruct (decide (i < Z.to_nat n)) as [Hlt|Hge].
    + rewrite lookup_replicate_2 by done.
      destruct (lookup_lt_is_Some_2 ts i) as [t' Ht']; [lia |].
      destruct (Forall2_lookup_r _ _ _ _ _ Hts Ht') as (_ & _ & Hg).
      apply getitem_Ok in Hg. congruence.
    + rewrite lookup_ge_None_2 by lia. symmetry. apply lookup_replicate_None. lia.
  - apply comprehension_Ok in Hids. eapply Forall2_impl; [exact Hids |].
    intros func id Hg. by apply getitem_Ok.
Qed.

(** ** The object and its recurrent state *)

(** [str.lower] leaves no upper-case letter, changes nothing else and
    keeps the length. *)
Lemma lower_char_not_upper (c : ascii) : isupper (lower_char c) = false.
Proof.
  destruct c as [[] [] [] [] [] [] [] []]; reflexivity.
Qed.

Lemma lower_char_fixed (c : ascii) : isupper c = false → lower_char c = c.
Proof.
  destruct c as [[] [] [] [] [] [] [] []]; (reflexivity || discriminate).
Qed.

Lemma lower_has_no_upper (s : string) : has_upper (lower s) = false.
Proof.
  induction s as [|c s IH]; [reflexivity|].
  simpl. rewrite lower_char_not_upper. exact IH.
Qed.

Lemma lower_fixed (s : string) : has_upper s = false → lower s = s.
Proof.
  induction s as [|c s IH]; [reflexivity|].
  simpl. intros [Hc Hs]%orb_false_iff.
  rewrite (lower_char_fixed c Hc), (IH Hs). reflexivity.
Qed.

Lemma lower_length (s : string) : String.length (lower s) = String.length s.
Proof.
  induction s as [|c s IH]; [reflexivity|]. simpl. by rewrite IH.
Qed.

Section BridgeFacts.

Context {num : Type} {RecurrentState : Type}.
Variable fsub : num → num → num.
Variable np_log : Z → num.
Variable sess_run :
  list Z → option RecurrentState → result (RecurrentState * list (list num)).

Local Abbreviation LM := (@LModel RecurrentState).
Local Abbreviation init := (@__init__ RecurrentState).
Local Abbreviation logit_to_prior := (_logit_to_prior fsub np_log).
Local Abbreviation lm_prior := (get_lm_prior fsub np_log sess_run).
Local Abbreviation reach := (reachable fsub np_log sess_run).

Lemma init_Ok (fs : list string) (n : Z) (vocab : gmap string Z) (ps : PyVal)
    (m : LM) :
  init fs n vocab ps = Ok m ↔
    ∃ d l, set_lib_to_lib vocab fs n = Ok (d, l) ∧ m = mkLModel n ps vocab d l None.
Proof.
  unfold __init__. rewrite bind_Ok. split.
  - intros ([d l] & H & [= <-]). by exists d, l.
  - intros (d & l & H & ->). by exists (d, l).
Qed.

Lemma init_raises (fs : list string) (n : Z) (vocab : gmap string Z) (ps : PyVal)
    (e : PyErr) :
  init fs n vocab ps = Raise e ↔ set_lib_to_lib vocab fs n = Raise e.
Proof.
  unfold __init__. rewrite bind_Raise. split; [| by left].
  intros [H | (t & _ & [=])]. done.
Qed.

Lemma same_tables_eq (a b : LM) :
  same_tables a b → next_state a = next_state b → a = b.
Proof.
  destruct a, b. unfold same_tables. simpl. intros (-> & -> & -> & -> & ->) ->. done.
Qed.

Lemma lm_prior_Ok (self self' : LM) (next_input : list Z) (prior : list (list num)) :
  lm_prior self next_input = (self', Ok prior) ↔
    ∃ x st lg, _prep self next_input = Ok x ∧
      sess_run x (next_state self) = Ok (st, lg) ∧
      self' = set_next_state self (Some st) ∧
      logit_to_prior self' lg = Ok prior.
Proof.
  unfold get_lm_prior. split.
  - destruct (_prep self next_input) as [x|e]; [| intros [=]].
    destruct (sess_run x (next_state self)) as [[st lg]|e] eqn:Hrun; [| intros [=]].
    cbv zeta. intros [= <- H]. by exists x, st, lg.
  - intros (x & st & lg & -> & -> & -> & ->). done.
Qed.

(** A call changes nothing but [self.next_state]. *)
Lemma lm_prior_same_tables (self : LM) (next_input : list Z) :
  same_tables (lm_prior self next_input).1 self.
Proof.
  unfold get_lm_prior, same_tables.
  destruct (_prep self next_input) as [x|e]; [| done].
  destruct (sess_run x (next_state self)) as [[st lg]|e]; simpl; done.
Qed.

Lemma reachable_same_tables (fresh self : LM) :
  reach fresh self → same_tables self fresh.
Proof.
  induction 1 as [| self next_input _ IH | self _ IH]; [done | |].
  - pose proof (lm_prior_same_tables self next_input) as H.
    unfold same_tables in *. intuition congruence.
  - exact IH.
Qed.

Lemma logit_to_prior_same_tables (a b : LM) (logit : list (list num)) :
  same_tables a b → logit_to_prior a logit = logit_to_prior b logit.
Proof.
  intros (Hn & Hp & Hv & Hd & _). unfold _logit_to_prior. by rewrite Hn, Hp, Hv, Hd.
Qed.

Lemma init_entries (fs : list string) (n : Z) (vocab : gmap string Z)
    (ps : PyVal) (fresh : LM) :
  init fs n vocab ps = Ok fresh →
  ∀ i, i < length (dsr2lm fresh) →
    ∃ k id, vocab !! k = Some id ∧ dsr2lm fresh !! i = Some id.
Proof.
  intros Hinit. apply init_Ok in Hinit as (d & l & Hset & ->). simpl.
  destruct (set_lib_to_lib_table _ _ _ _ _ Hset) as (Hlen & Hterm & Hfun).
  intros i Hi. destruct (decide (i < Z.to_nat n)) as [Hlt|Hge].
  - destruct (Hterm i Hlt) as (t & Ht & Hd). eauto.
  - destruct (lookup_lt_is_Some_2 fs (i - Z.to_nat n)) as [func Hfunc]; [lia |].
    destruct (Hfun _ _ Hfunc) as (id & Hid & Hd).
    replace (Z.to_nat n + (i - Z.to_nat n)) with i in Hd by lia. eauto.
Qed.

(** *** C4 *)

(** C4. After a successful construction the alignment table [dsr2lm] has
    one entry per search token (the input variables, then the functions),
    every entry is an id found in the model vocabulary, the entries of the
    input variables are all the id of ['TERMINAL'], the entry of a
    function is the id of its case-normalised name, and no later call or
    reset changes the table.  The case-normalised name [lower func] holds
    no upper-case letter, is [func] itself when [func] holds none, and is
    the same for two names that differ by case only, which then share
    their entry. *)
Theorem alignment_table_invariant (fs : list string) (n : Z)
    (vocab : gmap string Z) (ps : PyVal) (fresh : LM) :
  init fs n vocab ps = Ok fresh →
  length (dsr2lm fresh) = Z.to_nat n + length fs ∧
  (∀ i, i < length (dsr2lm fresh) →
     ∃ k id, vocab !! k = Some id ∧ dsr2lm fresh !! i = Some id) ∧
  (∀ i, i < Z.to_nat n →
     ∃ t, vocab !! "TERMINAL" = Some t ∧ dsr2lm fresh !! i = Some t) ∧
  (∀ j func, fs !! j = Some func →
     ∃ id, vocab !! lower func = Some id ∧
           dsr2lm fresh !! (Z.to_nat n + j) = Some id) ∧
  (∀ j func, fs !! j = Some func →
     has_upper (lower func) = false ∧
     (has_upper func = false → lower func = func) ∧
     String.length (lower func) = String.length func) ∧
  (∀ j j' func func', fs !! j = Some func → fs !! j' = Some func' →
     lower func = lower func' →
     dsr2lm fresh !! (Z.to_nat n + j) = dsr2lm fresh !! (Z.to_nat n + j')) ∧
  (∀ self, reach fresh self → dsr2lm self = dsr2lm fresh).
Proof.
  intros Hinit. pose proof (init_entries _ _ _ _ _ Hinit) as Hall.
  apply init_Ok in Hinit as (d & l & Hset & ->). simpl in *.
  destruct (set_lib_to_lib_table _ _ _ _ _ Hset) as (Hlen & Hterm & Hfun).
  split; [done|]. split; [done|]. split; [done|]. split; [done|].
  split; [|split].
  - intros j func _. split; [apply lower_has_no_upper|].
    split; [apply lower_fixed | apply lower_length].
  - intros j j' func func' Hj Hj' Heq.
    destruct (Hfun _ _ Hj) as (id & Hid & ->).
    destruct (Hfun _ _ Hj') as (id' & Hid' & ->).
    rewrite Heq in Hid. congruence.
  - intros self Hr. apply reachable_same_tables in Hr. apply Hr.
Qed.

(** *** C5 *)

(** C5. Construction raises exactly when a search token has no entry in
    the model vocabulary (['TERMINAL'] when there is an input variable,
    or the lower-cased name of a function); what is raised is the
    [KeyError] of a missing key; and when it returns, every entry of the
    table was found in the vocabulary, none being made up. *)
Theorem construction_fails_on_missing_token (fs : list string) (n : Z)
    (vocab : gmap string Z) (ps : PyVal) :
  (raises (init fs n vocab ps) ↔
     ((0 < n)%Z ∧ vocab !! "TERMINAL" = None) ∨
     (∃ func, func ∈ fs ∧ vocab !! lower func = None)) ∧
  (∀ e, init fs n vocab ps = Raise e →
     ∃ k, e = KeyError k ∧ vocab !! k = None) ∧
  (returns (init fs n vocab ps) ↔
     ((0 < n)%Z → is_Some (vocab !! "TERMINAL")) ∧
     (∀ func, func ∈ fs → is_Some (vocab !! lower func))) ∧
  (∀ fresh, init fs n vocab ps = Ok fresh →
     Forall (λ id, ∃ k, vocab !! k = Some id) (dsr2lm fresh)).
Proof.
  assert (Hraises : raises (init fs n vocab ps) ↔
     ((0 < n)%Z ∧ vocab !! "TERMINAL" = None) ∨
     (∃ func, func ∈ fs ∧ vocab !! lower func = None)).
  { rewrite <- set_lib_to_lib_raises. unfold raises.
    split; intros [e He]; exists e; by apply (init_raises fs n vocab ps e). }
  split; [exact Hraises |]. split; [| split].
  - intros e He. apply init_raises in He.
    apply set_lib_to_lib_Raise in He as (k & -> & Hk & _). eauto.
  - rewrite returns_not_raises, Hraises. split.
    + intros Hno. split.
      * intros Hn. destruct (vocab !! "TERMINAL") eqn:E; [eauto |].
        destruct Hno. by left.
      * intros func Hin. destruct (vocab !! lower func) eqn:E; [eauto |].
        destruct Hno. right. eauto.
    + intros [Ht Hf] [[Hn Hnone] | (func & Hin & Hnone)].
      * destruct (Ht Hn) as [t Hsome]. congruence.
      * destruct (Hf func Hin) as [t Hsome]. congruence.
  - intros fresh Hinit.
    pose proof (init_entries _ _ _ _ _ Hinit) as Hall.
    apply Forall_lookup. intros i id Hi.
    destruct (Hall i (lookup_lt_Some _ _ _ Hi)) as (k & id' & Hk & Hid).
    exists k. congruence.
Qed.

(** *** C7 *)

(** C7. The held state is absent after construction; a call on an object
    that holds no state runs the session without an initial state; a
    call in which the session runs leaves exactly the state the session
    produced, whatever was held before; a call that returns leaves a
    state held; and no call does anything to the held state but keep it
    or replace it by a produced one. *)
Theorem held_state_machine :
  (∀ fs n vocab ps (fresh : LM),
     init fs n vocab ps = Ok fresh → next_state fresh = None) ∧
  (∀ (self : LM) next_input x,
     next_state self = None → _prep self next_input = Ok x →
     ∀ st lg, sess_run x None = Ok (st, lg) →
       lm_prior self next_input
       = (set_next_state self (Some st),
          logit_to_prior (set_next_state self (Some st)) lg)) ∧
  (∀ (self : LM) next_input x st lg,
     _prep self next_input = Ok x →
     sess_run x (next_state self) = Ok (st, lg) →
     next_state (lm_prior self next_input).1 = Some st) ∧
  (∀ (self self' : LM) next_input prior,
     lm_prior self next_input = (self', Ok prior) →
     ∃ x st lg, _prep self next_input = Ok x ∧
       sess_run x (next_state self) = Ok (st, lg) ∧ next_state self' = Some st) ∧
  (∀ (self : LM) next_input,
     (lm_prior self next_input).1 = self ∨
     ∃ x st lg, _prep self next_input = Ok x ∧
       sess_run x (next_state self) = Ok (st, lg) ∧
       (lm_prior self next_input).1 = set_next_state self (Some st)).
Proof.
  repeat split.
  - intros fs n vocab ps fresh Hinit.
    apply init_Ok in Hinit as (d & l & _ & ->). done.
  - intros self next_input x Hnone Hprep st lg Hrun.
    unfold get_lm_prior. by rewrite Hprep, Hnone, Hrun.
  - intros self next_input x st lg Hprep Hrun.
    unfold get_lm_prior. by rewrite Hprep, Hrun.
  - intros self self' next_input prior Hcall.
    apply lm_prior_Ok in Hcall as (x & st & lg & Hprep & Hrun & -> & _).
    by exists x, st, lg.
  - intros self next_input. unfold get_lm_prior.
    destruct (_prep self next_input) as [x|e]; [| by left].
    destruct (sess_run x (next_state self)) as [[st lg]|e] eqn:Hrun; [| by left].
    right. by exists x, st, lg.
Qed.

(** *** C8 *)

(** C8. On any object reached from a freshly constructed one by calls and
    resets, a reset followed by a call on [x] returns or raises what a
    call on [x] on the fresh object does, and leaves the same object. *)
Theorem reset_is_fresh (fs : list string) (n : Z) (vocab : gmap string Z)
    (ps : PyVal) (fresh self : LM) (x : list Z) :
  init fs n vocab ps = Ok fresh → reach fresh self →
  lm_prior (resetEpisode self) x = lm_prior fresh x.
Proof.
  intros Hinit Hreach. f_equal. apply same_tables_eq.
  - apply reachable_same_tables in Hreach. exact Hreach.
  - apply init_Ok in Hinit as (d & l & _ & ->). done.
Qed.

(** ** From logits to prior *)

Local Abbreviation share n := (λ v : num, fsub v (np_log n)).

Lemma share_row_Ok (t n : Z) (row row' : list num) :
  share_row fsub np_log t n row = Ok row' ↔
    ∃ pt, np_index (length row) t = Ok pt ∧ row' = alter (share n) pt row.
Proof.
  unfold share_row. rewrite bind_Ok. split; intros (pt & Hpt & H); exists pt.
  - by injection H as <-.
  - by subst row'.
Qed.

Lemma share_row_Raise (t n : Z) (row : list num) (e : PyErr) :
  share_row fsub np_log t n row = Raise e → e = IndexError.
Proof.
  unfold share_row. rewrite bind_Raise. intros [H | (pt & _ & [=])].
  by eapply np_index_Raise.
Qed.

Lemma gather_row_Raise (ids : list Z) (row : list num) (e : PyErr) :
  gather_row ids row = Raise e → e = IndexError.
Proof.
  intros H. apply comprehension_Raise in H as (id & _ & H). by eapply np_get_Raise.
Qed.

Lemma gather_row_lookup (ids : list Z) (row prow : list num) (i : nat) (id : Z) :
  gather_row ids row = Ok prow → ids !! i = Some id →
  ∃ v, np_get row id = Ok v ∧ prow !! i = Some v.
Proof.
  intros H Hi. destruct (comprehension_lookup _ _ _ _ _ H Hi) as (v & Hv & Hg). eauto.
Qed.

(** Reading a row in which the column [pt] has been corrected. *)
Lemma np_get_alter (f : num → num) (pt : nat) (row : list num) (id : Z) (v' : num) :
  np_get (alter f pt row) id = Ok v' ↔
    ∃ p v, np_index (length row) id = Ok p ∧ row !! p = Some v ∧
           v' = if decide (p = pt) then f v else v.
Proof.
  rewrite np_get_Ok, length_alter. split.
  - intros (p & Hp & Hl). rewrite list_lookup_alter in Hl.
    destruct (decide (pt = p)) as [->|Hne].
    + destruct (row !! p) as [v|] eqn:E; [| discriminate]. injection Hl as <-.
      exists p, v. by rewrite decide_True.
    + exists p, v'. by rewrite decide_False.
  - intros (p & v & Hp & Hv & ->). exists p. split; [done |].
    rewrite list_lookup_alter. destruct (decide (p = pt)) as [->|Hne].
    + by rewrite decide_True, Hv.
    + by rewrite decide_False.
Qed.

Lemma logit_to_prior_off (self : LM) (logit : list (list num)) :
  is_True (prob_sharing self) = false →
  logit_to_prior self logit = comprehension (gather_row (dsr2lm self)) logit.
Proof. unfold _logit_to_prior. by intros ->. Qed.

Lemma logit_to_prior_on (self : LM) (logit : list (list num)) :
  is_True (prob_sharing self) = true →
  logit_to_prior self logit =
    (t ← getitem (lm_token2idx self) "TERMINAL";
     logit' ← comprehension (share_row fsub np_log t (dsr_n_input_var self)) logit;
     comprehension (gather_row (dsr2lm self)) logit').
Proof.
  unfold _logit_to_prior. intros ->.
  by destruct (getitem (lm_token2idx self) "TERMINAL").
Qed.

Lemma is_True_spec (v : PyVal) : is_True v = true ↔ v = PyBool true.
Proof. destruct v as [|[]| |]; simpl; split; congruence. Qed.

(** With the correction on, row by row. *)
Lemma logit_to_prior_on_row (self : LM) (logit prior : list (list num))
    (b : nat) (row : list num) :
  is_True (prob_sharing self) = true →
  logit_to_prior self logit = Ok prior → logit !! b = Some row →
  ∃ t pt prow, lm_token2idx self !! "TERMINAL" = Some t ∧
    np_index (length row) t = Ok pt ∧ prior !! b = Some prow ∧
    gather_row (dsr2lm self)
               (alter (share (dsr_n_input_var self)) pt row) = Ok prow.
Proof.
  intros Hon H Hb. rewrite logit_to_prior_on in H by done.
  apply bind_Ok in H as (t & Ht & H). apply bind_Ok in H as (logit' & Hshare & H).
  destruct (comprehension_lookup _ _ _ _ _ Hshare Hb) as (row' & Hb' & Hrow').
  destruct (comprehension_lookup _ _ _ _ _ H Hb') as (prow & Hp & Hg).
  apply share_row_Ok in Hrow' as (pt & Hpt & ->). apply getitem_Ok in Ht.
  by exists t, pt, prow.
Qed.

Lemma logit_to_prior_length (self : LM) (logit prior : list (list num)) :
  logit_to_prior self logit = Ok prior →
  length prior = length logit ∧
  Forall (λ prow, length prow = length (dsr2lm self)) prior.
Proof.
  unfold _logit_to_prior. intros H. apply bind_Ok in H as (logit' & Hshare & H).
  split.
  - rewrite (comprehension_length _ _ _ H).
    destruct (is_True (prob_sharing self)); [| by injection Hshare as <-].
    apply bind_Ok in Hshare as (t & _ & Hshare). by eapply comprehension_length.
  - apply Forall_lookup. intros b prow Hb.
    apply comprehension_Ok in H.
    destruct (Forall2_lookup_r _ _ _ _ _ H Hb) as (row' & _ & Hg).
    by eapply comprehension_length.
Qed.

Lemma group_size_terminal (t : Z) (k : nat) (ids : list Z) :
  t ∉ ids → group_size (replicate k t ++ ids) t = k.
Proof.
  intros Hnot. unfold group_size. rewrite filter_app, length_app.
  assert (filter (λ id, id = t) ids = []) as ->.
  { induction ids as [|id ids IH]; [done |].
    rewrite filter_cons_False.
    - apply IH. intros Hin. apply Hnot. by right.
    - intros ->. apply Hnot. by left. }
  assert (filter (λ id, id = t) (replicate k t) = replicate k t) as ->.
  { induction k as [|k IH]; [done |]. simpl. by rewrite filter_cons_True, IH. }
  rewrite length_replicate. simpl. lia.
Qed.

(** *** C1 *)

(** C1, as the code has it.  With [prob_sharing=True] the correction is
    applied to the logit of ['TERMINAL'] only, and by the logarithm of
    [dsr_n_input_var]: in every batch row, with [L] the raw logit of
    ['TERMINAL'], the prior has one entry per search token in the order
    of the library, the entry of every input variable is
    [L - log(dsr_n_input_var)], the entry of a function is its raw logit
    unless it reads the column of ['TERMINAL'], whatever the number of
    search tokens that share its id, and two search tokens with the same
    id get the same entry.  The group of ['TERMINAL'] has exactly
    [dsr_n_input_var] members when no function maps to that id. *)
Theorem sharing_corrects_terminal_only (fs : list string) (n : Z)
    (vocab : gmap string Z) (fresh self self' : LM) (next_input : list Z)
    (prior : list (list num)) :
  init fs n vocab (PyBool true) = Ok fresh → reach fresh self →
  lm_prior self next_input = (self', Ok prior) →
  ∃ t x st logit,
    vocab !! "TERMINAL" = Some t ∧ _prep self next_input = Ok x ∧
    sess_run x (next_state self) = Ok (st, logit) ∧
    length prior = length logit ∧
    ((∀ func id, func ∈ fs → vocab !! lower func = Some id → id ≠ t) →
     group_size (dsr2lm fresh) t = Z.to_nat n) ∧
    ∀ b row, logit !! b = Some row →
      ∃ L pt prow, np_index (length row) t = Ok pt ∧ row !! pt = Some L ∧
        prior !! b = Some prow ∧ length prow = Z.to_nat n + length fs ∧
        (∀ i, i < Z.to_nat n → prow !! i = Some (fsub L (np_log n))) ∧
        (∀ j func, fs !! j = Some func →
           ∃ id p v, vocab !! lower func = Some id ∧
             np_index (length row) id = Ok p ∧ row !! p = Some v ∧
             prow !! (Z.to_nat n + j)
             = Some (if decide (p = pt) then fsub v (np_log n) else v)) ∧
        (∀ i i' id, dsr2lm fresh !! i = Some id → dsr2lm fresh !! i' = Some id →
           prow !! i = prow !! i').
Proof.
  intros Hinit Hreach Hcall.
  apply lm_prior_Ok in Hcall as (x & st & logit & Hprep & Hrun & -> & Hprior).
  apply reachable_same_tables in Hreach.
  rewrite (logit_to_prior_same_tables _ fresh) in Hprior
    by (destruct Hreach as (? & ? & ? & ? & ?); by repeat split).
  apply init_Ok in Hinit as (d & l & Hset & ->).
  set (fresh := mkLModel n (PyBool true) vocab d l None) in *.
  pose proof (logit_to_prior_length _ _ _ Hprior) as [Hlen Hwidth].
  pose proof Hprior as Hon. rewrite logit_to_prior_on in Hon by done.
  apply bind_Ok in Hon as (t & Ht & _). apply getitem_Ok in Ht. simpl in Ht.
  destruct (set_lib_to_lib_table _ _ _ _ _ Hset) as (Hd & Hterm & Hfun).
  exists t, x, st, logit. repeat (split; [done |]). split.
  - intros Hnot. destruct (set_lib_to_lib_shape _ _ _ _ _ _ Hset Ht) as (ids & -> & Hids).
    apply group_size_terminal. intros Hin. apply list_elem_of_lookup in Hin as [j Hj].
    destruct (Forall2_lookup_r _ _ _ _ _ Hids Hj) as (func & Hfunc & Hid).
    eapply Hnot; [by eapply list_elem_of_lookup_2 | done | done].
  - intros b row Hb.
    destruct (logit_to_prior_on_row fresh _ _ _ _ eq_refl Hprior Hb)
      as (t' & pt & prow & Ht' & Hpt & Hpb & Hg).
    simpl in Ht', Hg. assert (t' = t) as -> by congruence.
    destruct (lookup_lt_is_Some_2 row pt (np_index_lt _ _ _ Hpt)) as [L HL].
    exists L, pt, prow. repeat (split; [done |]). split; [| split; [| split]].
    + rewrite Forall_lookup in Hwidth. rewrite (Hwidth _ _ Hpb). exact Hd.
    + intros i Hi. destruct (Hterm i Hi) as (t' & Ht'' & Hdi).
      assert (t' = t) as -> by congruence.
      destruct (gather_row_lookup _ _ _ _ _ Hg Hdi) as (v' & Hv' & ->).
      apply np_get_alter in Hv' as (p & v & Hp & Hv & ->).
      assert (p = pt) as -> by congruence. rewrite decide_True by done. congruence.
    + intros j func Hj. destruct (Hfun j func Hj) as (id & Hid & Hdj).
      destruct (gather_row_lookup _ _ _ _ _ Hg Hdj) as (v' & Hv' & ->).
      apply np_get_alter in Hv' as (p & v & Hp & Hv & ->).
      by exists id, p, v.
    + intros i i' id Hi Hi'.
      destruct (gather_row_lookup _ _ _ _ _ Hg Hi) as (v & Hv & ->).
      destruct (gather_row_lookup _ _ _ _ _ Hg Hi') as (v' & Hv' & ->).
      congruence.
Qed.

(** Where the correction by group size and the code agree: when the ids
    of the vocabulary are not negative, the functions have pairwise
    distinct ids, none of them the id of ['TERMINAL'], and subtracting
    [log(1)] changes no value.  The groups are then the input variables
    and one group per function. *)
Lemma shared_by_group_size_regular (fs : list string) (n : Z)
    (vocab : gmap string Z) (fresh self self' : LM) (next_input x : list Z)
    (st : RecurrentState) (logit prior : list (list num)) (t : Z) (ids : list Z) :
  (∀ v, fsub v (np_log 1) = v) →
  init fs n vocab (PyBool true) = Ok fresh → reach fresh self →
  vocab !! "TERMINAL" = Some t →
  dsr2lm fresh = replicate (Z.to_nat n) t ++ ids → NoDup ids → t ∉ ids →
  map_Forall (λ _ id, (0 ≤ id)%Z) vocab →
  _prep self next_input = Ok x → sess_run x (next_state self) = Ok (st, logit) →
  lm_prior self next_input = (self', Ok prior) →
  ∀ b row prow, logit !! b = Some row → prior !! b = Some prow →
    shared_by_group_size fsub np_log (dsr2lm fresh) row prow.
Proof.
  intros Hone Hinit Hreach Ht Hd Hnodup Hnot Hpos Hprep Hrun Hcall b row prow Hb Hpb.
  pose proof (init_entries _ _ _ _ _ Hinit) as Hentries.
  apply lm_prior_Ok in Hcall as (x' & st' & logit' & Hprep' & Hrun' & -> & Hprior).
  assert (logit' = logit) as -> by congruence.
  apply reachable_same_tables in Hreach.
  rewrite (logit_to_prior_same_tables _ fresh) in Hprior
    by (destruct Hreach as (? & ? & ? & ? & ?); by repeat split).
  assert (Hfresh : prob_sharing fresh = PyBool true ∧ lm_token2idx fresh = vocab ∧
                   dsr_n_input_var fresh = n).
  { apply init_Ok in Hinit as (d & l & _ & ->). done. }
  destruct Hfresh as (Hps & Hv & Hn).
  destruct (logit_to_prior_on_row fresh _ _ _ _ ltac:(by rewrite Hps) Hprior Hb)
    as (t' & pt & prow' & Ht' & Hpt & Hpb' & Hg).
  rewrite Hv in Ht'. rewrite Hn in Hg.
  assert (t' = t) as -> by congruence. assert (prow' = prow) as -> by congruence.
  intros i id L Hi HL.
  destruct (gather_row_lookup _ _ _ _ _ Hg Hi) as (v' & Hv' & ->).
  apply np_get_alter in Hv' as (p & v & Hp & Hrow & ->).
  apply np_get_Ok in HL as (p' & Hp' & HL).
  assert (p' = p) as -> by congruence. assert (v = L) as -> by congruence.
  f_equal.
  assert (Hnonneg : ∀ id', id' ∈ dsr2lm fresh → (0 ≤ id')%Z).
  { intros id' Hin. apply list_elem_of_lookup in Hin as [k Hk].
    destruct (Hentries k (lookup_lt_Some _ _ _ Hk)) as (key & id'' & Hkey & Hk').
    assert (id'' = id') as -> by congruence. exact (Hpos _ _ Hkey). }
  assert (Hsame : p = pt ↔ id = t).
  { pose proof (Hnonneg id ltac:(by eapply list_elem_of_lookup_2)) as Hid.
    pose proof (Hpos _ _ Ht) as Htpos. simpl in Htpos.
    apply np_index_Ok in Hp as [[_ ->] | [? _]]; [| lia].
    apply np_index_Ok in Hpt as [[_ ->] | [? _]]; [| lia].
    split; [intros Heq; lia | by intros ->]. }
  rewrite Hd in Hi |- *.
  destruct (decide (id = t)) as [->|Hne].
  - rewrite decide_True by (by apply Hsame).
    rewrite group_size_terminal by done. f_equal. f_equal.
    assert (i < Z.to_nat n); [| lia].
    destruct (decide (i < Z.to_nat n)) as [|Hge]; [done | exfalso].
    rewrite lookup_app_r in Hi by (rewrite length_replicate; lia).
    apply Hnot. by eapply list_elem_of_lookup_2.
  - rewrite decide_False by (intros Heq; by apply Hne, Hsame).
    assert (id ∈ ids) as Hin.
    { apply list_elem_of_lookup_2 in Hi. apply elem_of_app in Hi as [Hi | Hi]; [| done].
      apply elem_of_replicate in Hi as [-> _]. done. }
    assert (group_size (replicate (Z.to_nat n) t ++ ids) id = 1) as ->;
      [| by rewrite Hone].
    unfold group_size. rewrite filter_app, length_app.
    assert (Hrep : ∀ k, filter (λ id', id' = id) (replicate k t) = []).
    { induction k as [|k IH]; [done |]. simpl.
      rewrite filter_cons_False by congruence. exact IH. }
    rewrite Hrep.
    simpl. clear -Hnodup Hin. induction Hnodup as [|y ids' Hy _ IH].
    + by apply elem_of_nil in Hin.
    + destruct (decide (y = id)) as [->|Hyne].
      * rewrite filter_cons_True by done. simpl. f_equal.
        assert (filter (λ id', id' = id) ids' = []) as ->; [| done].
        clear IH Hin. induction ids' as [|z ids' IH]; [done |].
        rewrite filter_cons_False.
        -- apply IH. intros Hin. apply Hy. by right.
        -- intros ->. apply Hy. by left.
      * rewrite filter_cons_False by done. apply IH.
        apply elem_of_cons in Hin as [-> | Hin]; done.
Qed.

(** *** C2 *)




(** *** C3 *)

Lemma prep_Ok (self : LM) (next_input x : list Z) :
  _prep self next_input = Ok x → length x = length next_input.
Proof. apply comprehension_length. Qed.

Lemma prep_returns (self : LM) (next_input : list Z) :
  returns (_prep self next_input) ↔
    Forall (λ z, (- Z.of_nat (length (dsr2lm self)) ≤ z
                  < Z.of_nat (length (dsr2lm self)))%Z) next_input.
Proof.
  unfold _prep. rewrite comprehension_returns.
  apply Forall_proper; [| done]. intros z. apply np_get_returns.
Qed.

Lemma gather_row_returns (ids : list Z) (row : list num) :
  Forall (λ id, (- Z.of_nat (length row) ≤ id < Z.of_nat (length row))%Z) ids →
  returns (gather_row ids row).
Proof.
  intros H. apply comprehension_returns. eapply Forall_impl; [exact H |].
  intros id Hid. by apply np_get_returns.
Qed.

(** The prior is computed whenever the ids of the table, and the id of
    ['TERMINAL'] when the correction is on, index the rows of the logits. *)
Lemma logit_to_prior_returns (self : LM) (logit : list (list num)) (V : nat) :
  Forall (λ row, length row = V) logit →
  Forall (λ id, (- Z.of_nat V ≤ id < Z.of_nat V)%Z) (dsr2lm self) →
  (is_True (prob_sharing self) = true →
   ∃ t, lm_token2idx self !! "TERMINAL" = Some t ∧ (- Z.of_nat V ≤ t < Z.of_nat V)%Z) →
  returns (logit_to_prior self logit).
Proof.
  intros Hrows Hids Hterm.
  assert (Hgather : ∀ lg : list (list num), Forall (λ row, length row = V) lg →
            returns (comprehension (gather_row (dsr2lm self)) lg)).
  { intros lg Hlg. apply comprehension_returns. eapply Forall_impl; [exact Hlg |].
    intros row <-. by apply gather_row_returns. }
  destruct (is_True (prob_sharing self)) eqn:Hon.
  - rewrite logit_to_prior_on by done.
    destruct (Hterm eq_refl) as (t & Ht & Hrange). apply getitem_Ok in Ht.
    rewrite Ht. simpl.
    assert (returns (comprehension
              (share_row fsub np_log t (dsr_n_input_var self)) logit)) as [lg' Hlg'].
    { apply comprehension_returns. eapply Forall_impl; [exact Hrows |].
      intros row <-. destruct (proj2 (np_index_returns (length row) t) Hrange) as [pt Hpt].
      eexists. apply share_row_Ok. eauto. }
    rewrite Hlg'. simpl. apply Hgather.
    apply comprehension_Ok in Hlg'. apply Forall_lookup. intros b row' Hb.
    destruct (Forall2_lookup_r _ _ _ _ _ Hlg' Hb) as (row & Hrow & Hs).
    apply share_row_Ok in Hs as (pt & _ & ->). rewrite length_alter.
    rewrite Forall_lookup in Hrows. by eapply Hrows.
  - rewrite logit_to_prior_off by done. by apply Hgather.
Qed.

(** C3, as the code has it.  When the session gives one row of logits
    per fed token, a call that returns gives one vector per element of
    the batch and every vector has one entry per search token, input
    variables and functions.  A batch of indices of search tokens (from
    [-len] to [len - 1]) is turned into ids, one per element; and the call
    returns when, moreover, the batch is not empty, the session runs, the
    ids of the vocabulary index the rows of the logits, and the vocabulary
    holds ['TERMINAL'] in case [prob_sharing] is [True].  The last
    condition cannot be dropped: with [prob_sharing=True] and no
    ['TERMINAL'] in the vocabulary no call returns. *)
Theorem prior_shape (fs : list string) (n : Z) (vocab : gmap string Z)
    (ps : PyVal) (fresh self : LM) (next_input : list Z) :
  init fs n vocab ps = Ok fresh → reach fresh self →
  (∀ x st st' lg, sess_run x st = Ok (st', lg) → length lg = length x) →
  (∀ self' prior, lm_prior self next_input = (self', Ok prior) →
     length prior = length next_input ∧
     Forall (λ prow, length prow = Z.to_nat n + length fs) prior) ∧
  (Forall (λ z, (- Z.of_nat (Z.to_nat n + length fs) ≤ z
                 < Z.of_nat (Z.to_nat n + length fs))%Z) next_input →
   ∃ x, _prep self next_input = Ok x ∧ length x = length next_input) ∧
  (∀ x st lg V, next_input ≠ [] → _prep self next_input = Ok x →
     sess_run x (next_state self) = Ok (st, lg) →
     Forall (λ row, length row = V) lg →
     map_Forall (λ _ id, (- Z.of_nat V ≤ id < Z.of_nat V)%Z) vocab →
     (ps = PyBool true → is_Some (vocab !! "TERMINAL")) →
     ∃ prior, lm_prior self next_input = (set_next_state self (Some st), Ok prior)) ∧
  (ps = PyBool true → vocab !! "TERMINAL" = None →
   ∀ self' prior, lm_prior self next_input ≠ (self', Ok prior)).
Proof.
  intros Hinit Hreach Hshape. apply reachable_same_tables in Hreach.
  destruct Hreach as (Hsn & Hsp & Hsv & Hsd & Hsl).
  pose proof (init_entries _ _ _ _ _ Hinit) as Hentries.
  apply init_Ok in Hinit as (d & l & Hset & ->). simpl in *.
  destruct (set_lib_to_lib_table _ _ _ _ _ Hset) as (Hd & _ & _).
  split; [| split; [| split]].
  - intros self' prior Hcall.
    apply lm_prior_Ok in Hcall as (x & st & lg & Hprep & Hrun & -> & Hprior).
    apply logit_to_prior_length in Hprior as [Hlen Hwidth]. simpl in Hwidth. split.
    + rewrite Hlen, (Hshape _ _ _ _ Hrun). by eapply prep_Ok.
    + eapply Forall_impl; [exact Hwidth |]. intros prow ->. by rewrite Hsd.
  - intros Hrange. rewrite <- Hd, <- Hsd in Hrange.
    apply prep_returns in Hrange as [x Hx]. exists x. split; [done |].
    by eapply prep_Ok.
  - intros x st lg V _ Hprep Hrun Hrows Hvocab Hterm.
    destruct (logit_to_prior_returns (set_next_state self (Some st)) lg V) as [prior Hprior].
    + done.
    + simpl. rewrite Hsd. apply Forall_lookup. intros i id Hi.
      destruct (Hentries i (lookup_lt_Some _ _ _ Hi)) as (k & id' & Hk & Hid).
      assert (id' = id) as -> by congruence. exact (Hvocab _ _ Hk).
    + simpl. rewrite Hsp, Hsv. intros Hon. apply is_True_spec in Hon.
      destruct (Hterm Hon) as [t Ht]. exists t. split; [done |]. exact (Hvocab _ _ Ht).
    + exists prior. apply lm_prior_Ok. by exists x, st, lg.
  - intros -> Hnone self' prior Hcall.
    apply lm_prior_Ok in Hcall as (x & st & lg & _ & _ & -> & Hprior).
    rewrite logit_to_prior_on in Hprior by (simpl; by rewrite Hsp).
    simpl in Hprior. rewrite Hsv in Hprior. unfold getitem in Hprior.
    rewrite Hnone in Hprior. discriminate.
Qed.

(** *** C9 *)


(** What a call can raise besides what the session raises. *)
Lemma logit_to_prior_Raise (self : LM) (logit : list (list num)) (e : PyErr) :
  logit_to_prior self logit = Raise e → e = IndexError ∨ ∃ k, e = KeyError k.
Proof.
  assert (Hgather : ∀ lg : list (list num),
            comprehension (gather_row (dsr2lm self)) lg = Raise e → e = IndexError).
  { intros lg H. apply comprehension_Raise in H as (row & _ & H).
    by eapply gather_row_Raise. }
  destruct (is_True (prob_sharing self)) eqn:Hon.
  - rewrite logit_to_prior_on by done. rewrite bind_Raise.
    intros [H | (t & _ & H)].
    + apply getitem_Raise in H as [_ ->]. eauto.
    + apply bind_Raise in H as [H | (lg' & _ & H)]; [| left; by eapply Hgather].
      apply comprehension_Raise in H as (row & _ & H). left. by eapply share_row_Raise.
  - rewrite logit_to_prior_off by done. intros H. left. by eapply Hgather.
Qed.

Lemma prep_Raise (self : LM) (next_input : list Z) (e : PyErr) :
  _prep self next_input = Raise e → e = IndexError.
Proof.
  intros H. apply comprehension_Raise in H as (z & _ & H). by eapply np_get_Raise.
Qed.

End BridgeFacts.

(** ** The reverse table *)

Lemma enumerate_into_dom (l : list Z) (m : Z) :
  is_Some (enumerate_into 0 l ∅ !! m) ↔ m ∈ l.
Proof.
  induction l as [|x l IH] using rev_ind.
  - simpl. rewrite lookup_empty. split; [by intros [? [=]] | by intros ?%elem_of_nil].
  - rewrite enumerate_into_snoc, lookup_insert, elem_of_app, list_elem_of_singleton.
    case_decide as Hx.
    + subst. split; [by right | eauto].
    + rewrite IH. split; [by left | intros [H | ->]; done].
Qed.

Lemma group_size_pos (l : list Z) (m : Z) : m ∈ l → 1 ≤ group_size l m.
Proof.
  unfold group_size. induction l as [|x l IH]; [by intros ?%elem_of_nil |].
  intros Hin. destruct (decide (x = m)) as [->|Hne].
  - rewrite filter_cons_True by done. simpl. lia.
  - rewrite filter_cons_False by done. apply IH.
    apply elem_of_cons in Hin as [-> | Hin]; done.
Qed.

(** Two indices with the same id make a group of two at least. *)
Lemma group_size_shared (l : list Z) (m : Z) (i j : nat) :
  l !! i = Some m → l !! j = Some m → i < j → 2 ≤ group_size l m.
Proof.
  revert i j. induction l as [|x l IH]; intros i j Hi Hj Hlt; [done |].
  destruct j as [|j]; [lia |]. simpl in Hj.
  assert (m ∈ l) as Hin by (by eapply list_elem_of_lookup_2).
  pose proof (group_size_pos _ _ Hin) as Hpos. unfold group_size in *.
  destruct i as [|i]; simpl in Hi.
  - injection Hi as ->. rewrite filter_cons_True by done. simpl. lia.
  - assert (2 ≤ length (filter (λ id, id = m) l)) by (apply (IH i j); [done | done | lia]).
    destruct (decide (x = m)).
    + rewrite filter_cons_True by done. simpl. lia.
    + by rewrite filter_cons_False.
Qed.

(** C10. [lm2dsr] is defined on the model ids that occur in the alignment
    table and gives, for each, the greatest search index with that id.  So
    going from a search index to its id and back gives the index again
    exactly when no greater index has the same id: always for an id with a
    single search token, and for the last member only of an id shared by
    several. *)
Theorem lm2dsr_keeps_last_member (vocab : gmap string Z) (fs : list string)
    (n : Z) (dsr2lm : list Z) (lm2dsr : gmap Z nat) :
  set_lib_to_lib vocab fs n = Ok (dsr2lm, lm2dsr) →
  (∀ m, is_Some (lm2dsr !! m) ↔ m ∈ dsr2lm) ∧
  (∀ m i, lm2dsr !! m = Some i ↔
     dsr2lm !! i = Some m ∧ ∀ j, dsr2lm !! j = Some m → j ≤ i) ∧
  (∀ i m, dsr2lm !! i = Some m →
     (lm2dsr !! m = Some i ↔ ∀ j, dsr2lm !! j = Some m → j ≤ i)) ∧
  (∀ i m, dsr2lm !! i = Some m → group_size dsr2lm m = 1 → lm2dsr !! m = Some i) ∧
  (∀ i j m, dsr2lm !! i = Some m → dsr2lm !! j = Some m → i < j →
     lm2dsr !! m ≠ Some i ∧ ∃ k, lm2dsr !! m = Some k ∧ j ≤ k).
Proof.
  rewrite set_lib_to_lib_Ok. intros (ts & ids & _ & _ & Hd & ->). clear Hd.
  split; [| split; [| split; [| split]]].
  - intros m. apply enumerate_into_dom.
  - intros m i. apply enumerate_into_lookup.
  - intros i m Hi. rewrite enumerate_into_lookup. tauto.
  - intros i m Hi Hone. apply enumerate_into_lookup. split; [done |].
    intros j Hj. destruct (decide (j ≤ i)) as [|Hgt]; [done |].
    assert (2 ≤ group_size dsr2lm m) by (apply (group_size_shared _ _ i j); [done | done | lia]).
    lia.
  - intros i j m Hi Hj Hlt. split.
    + intros H. apply enumerate_into_lookup in H as [_ Hmax].
      specialize (Hmax j Hj). lia.
    + destruct (proj2 (enumerate_into_dom dsr2lm m)) as [k Hk].
      { by eapply list_elem_of_lookup_2. }
      exists k. split; [done |]. apply enumerate_into_lookup in Hk as [_ Hmax]. by apply Hmax.
Qed.

(** ** The session modelled from the spec *)

Section AdapterFacts.

Context {num : Type} {cell_state : Type}.
Variable fsub : num → num → num.
Variable np_log : Z → num.
Variable zero_state : cell_state.
Variable cell : Z → cell_state → cell_state * list num.

Local Abbreviation LMs := (@LModel (list cell_state)).
Local Abbreviation lm_prior_step := (get_lm_prior fsub np_log (step zero_state cell)).

Lemma step_Ok (ids : list Z) (st : option (list cell_state))
    (held' : list cell_state) (lg : list (list num)) :
  step zero_state cell ids st = Ok (held', lg) →
  length held' = length ids ∧ length lg = length ids.
Proof.
  unfold step. destruct st as [held|].
  - case_decide as Hlen; [| discriminate]. intros [= <- <-].
    rewrite !length_fmap, length_zip_with_r_eq by done. done.
  - intros [= <- <-]. by rewrite !length_fmap.
Qed.

(** C6. On an object whose batch holds indices of search tokens: when the
    held state was produced for another batch size than that of the
    batch, the call raises [StateShapeError] and leaves the object as it
    was; when a held state, if any, has the batch size of the batch, the
    call does not raise [StateShapeError].  The state held after a call
    that returns has the batch size of that call. *)
Theorem batch_size_is_enforced (self : LMs) (next_input x : list Z) :
  _prep self next_input = Ok x →
  (∀ held, next_state self = Some held → length held ≠ length next_input →
     lm_prior_step self next_input = (self, Raise StateShapeError)) ∧
  ((∀ held, next_state self = Some held → length held = length next_input) →
     (lm_prior_step self next_input).2 ≠ Raise StateShapeError) ∧
  (∀ self' prior, lm_prior_step self next_input = (self', Ok prior) →
     ∃ held', next_state self' = Some held' ∧ length held' = length next_input).
Proof.
  intros Hprep. pose proof (prep_Ok _ _ _ Hprep) as Hx. split; [| split].
  - intros held Hheld Hne. unfold get_lm_prior. rewrite Hprep, Hheld. simpl.
    rewrite decide_False by congruence. done.
  - intros Hmatch. unfold get_lm_prior. rewrite Hprep.
    destruct (step zero_state cell x (next_state self)) as [[held' lg]|e] eqn:Hstep.
    + cbv zeta. simpl. intros Hraise.
      apply logit_to_prior_Raise in Hraise as [[=] | (k & [=])].
    + simpl. intros [= ->]. unfold step in Hstep.
      destruct (next_state self) as [held|]; [| discriminate].
      rewrite decide_True in Hstep by (rewrite Hx; by apply Hmatch). discriminate.
  - intros self' prior Hcall.
    apply lm_prior_Ok in Hcall as (x' & held' & lg & Hprep' & Hstep & -> & _).
    assert (x' = x) as -> by congruence.
    apply step_Ok in Hstep as [Hlen _]. exists held'. split; [done | congruence].
Qed.

End AdapterFacts.

(** ** The worked example and the objects above *)


Lemma Rlog_2_pos : (0 < Rlog 2)%R.
Proof. unfold Rlog. pose proof ln_lt_2. lra. Qed.

Example ex_prior_with_sharing :
  get_lm_prior Rminus Rlog ex_run (ex_fresh 2 (PyBool true)) [0%Z]
  = (set_next_state (ex_fresh 2 (PyBool true)) (Some [1]),
     Ok [[2 - Rlog 2; 2 - Rlog 2; 1; / 2]%R]).
Proof. reflexivity. Qed.

Example ex_prior_without_sharing :
  (get_lm_prior Rminus Rlog ex_run (ex_fresh 2 (PyInt 1)) [0%Z]).2
  = Ok [[2; 2; 1; / 2]%R].
Proof. reflexivity. Qed.

Lemma ex_run_shape (x : list Z) (st : option (list nat)) (st' : list nat)
    (lg : list (list R)) :
  ex_run x st = Ok (st', lg) → length lg = length x.
Proof. intros H. by apply step_Ok in H as [_ H]. Qed.

(** In the worked example the two input variables get [2 - log 2]. *)
Lemma sharing_corrects_terminal_only_witness :
  ∃ t x st logit,
    ex_vocab !! "TERMINAL"%string = Some t ∧
    _prep (ex_fresh 2 (PyBool true)) [0%Z] = Ok x ∧
    ex_run x None = Ok (st, logit) ∧
    length [[2 - Rlog 2; 2 - Rlog 2; 1; / 2]%R] = length logit.
Proof.
  destruct (sharing_corrects_terminal_only Rminus Rlog ex_run
              ex_functions 2 ex_vocab (ex_fresh 2 (PyBool true))
              (ex_fresh 2 (PyBool true))
              (set_next_state (ex_fresh 2 (PyBool true)) (Some [1])) [0%Z]
              [[2 - Rlog 2; 2 - Rlog 2; 1; / 2]%R])
    as (t & x & st & logit & Ht & Hprep & Hrun & Hlen & _).
  - reflexivity.
  - constructor.
  - reflexivity.
  - exists t, x, st, logit. repeat split; assumption.
Defined.


Lemma prior_shape_witness :
  (length [[2 - Rlog 2; 2 - Rlog 2; 1; / 2]%R] = length [0%Z] ∧
   Forall (λ prow : list R, length prow = Z.to_nat 2 + length ex_functions)
          [[2 - Rlog 2; 2 - Rlog 2; 1; / 2]%R]) ∧
  (∃ x, _prep (ex_fresh 2 (PyBool true)) [0%Z] = Ok x ∧ length x = length [0%Z]) ∧
  (∃ prior, get_lm_prior Rminus Rlog ex_run (ex_fresh 2 (PyBool true)) [0%Z]
            = (set_next_state (ex_fresh 2 (PyBool true)) (Some [1]), Ok prior)).
Proof.
  destruct (prior_shape Rminus Rlog ex_run ex_functions 2 ex_vocab (PyBool true)
              (ex_fresh 2 (PyBool true)) (ex_fresh 2 (PyBool true)) [0%Z]
              eq_refl (reach_fresh _ _ _ _) ex_run_shape)
    as (Hshape & Hprep & Hret & _).
  split; [| split].
  - exact (Hshape _ _ eq_refl).
  - apply Hprep. repeat constructor; simpl; lia.
  - apply (Hret [0%Z] [1] [[2; 1; / 2]%R] 3).
    + discriminate.
    + reflexivity.
    + reflexivity.
    + repeat constructor.
    + unfold ex_vocab. repeat (apply map_Forall_insert_2; [simpl; lia |]).
      apply map_Forall_empty.
    + intros _. by exists 0%Z.
Defined.


(** A library whose function names are spelled with capitals: the table
    holds the ids of ['add'] and ['sin']. *)
Lemma alignment_table_invariant_witness :
  __init__ mc_functions 2 ex_vocab (PyBool true) = Ok (ex_fresh 2 (PyBool true)) ∧
  length (dsr2lm (ex_fresh 2 (PyBool true))) = 4 ∧
  ex_vocab !! "sin"%string = Some 2%Z ∧
  dsr2lm (ex_fresh 2 (PyBool true)) !! 3 = Some 2%Z ∧
  has_upper (lower "SIN") = false.
Proof.
  assert (Hinit : __init__ mc_functions 2 ex_vocab (PyBool true)
                  = Ok (ex_fresh 2 (PyBool true))) by reflexivity.
  destruct (alignment_table_invariant Rminus Rlog ex_run mc_functions 2 ex_vocab
              (PyBool true) (ex_fresh 2 (PyBool true)) Hinit)
    as (Hlen & _ & _ & Hfun & Hlow & _).
  destruct (Hfun 1 "SIN"%string eq_refl) as (id & Hid & Hd).
  destruct (Hlow 1 "SIN"%string eq_refl) as (Hup & _).
  split; [exact Hinit|]. split; [exact Hlen|].
  split; [reflexivity|]. split; [|exact Hup].
  change (ex_vocab !! lower "SIN") with (Some 2%Z) in Hid.
  injection Hid as <-. exact Hd.
Defined.

(** A state held for one batch row, then a batch of two. *)
Lemma batch_size_is_enforced_witness :
  get_lm_prior Rminus Rlog (step 0 ex_cell)
    (set_next_state (ex_fresh 2 (PyBool true)) (Some [1])) [0%Z; 2%Z]
  = (set_next_state (ex_fresh 2 (PyBool true)) (Some [1]), Raise StateShapeError).
Proof.
  apply (batch_size_is_enforced Rminus Rlog 0 ex_cell
           (set_next_state (ex_fresh 2 (PyBool true)) (Some [1]))
           [0%Z; 2%Z] [0%Z; 1%Z]) with (held := [1]).
  - reflexivity.
  - reflexivity.
  - simpl. lia.
Defined.

Lemma reset_is_fresh_witness :
  get_lm_prior Rminus Rlog ex_run
    (resetEpisode
       (get_lm_prior Rminus Rlog ex_run (ex_fresh 2 (PyBool true)) [0%Z]).1) [2%Z]
  = get_lm_prior Rminus Rlog ex_run (ex_fresh 2 (PyBool true)) [2%Z].
Proof.
  apply (reset_is_fresh Rminus Rlog ex_run ex_functions 2 ex_vocab (PyBool true)).
  - reflexivity.
  - apply reach_step. constructor.
Defined.

Lemma lm2dsr_keeps_last_member_witness :
  (enumerate_into 0 [0; 0; 1; 2]%Z ∅ : gmap Z nat) !! 0%Z = Some 1.
Proof.
  destruct (lm2dsr_keeps_last_member ex_vocab ex_functions 2 [0; 0; 1; 2]%Z
              (enumerate_into 0 [0; 0; 1; 2]%Z ∅) eq_refl) as (_ & Hlast & _).
  apply Hlast. split; [reflexivity |].
  intros [|[|[|[|j]]]] Hj; simpl in Hj; try lia; discriminate.
Defined.

(** *** C1, as stated *)

(** C1 fails as stated: with the functions [sin] and [Sin] the search
    indices 1 and 2 share the model id 1, a group of size 2 with raw logit
    1, and their prior entries are 1, not [1 - log 2]. *)
Lemma sharing_by_group_size_fails :
  __init__ cx_functions 1 cx_vocab (PyBool true) = Ok cx_fresh ∧
  group_size (dsr2lm cx_fresh) 1 = 2 ∧
  cx_run [0%Z] None = Ok ([1], [[2; 1]%R]) ∧
  get_lm_prior Rminus Rlog cx_run cx_fresh [0%Z]
  = (set_next_state cx_fresh (Some [1]), Ok [[2 - Rlog 1; 1; 1]%R]) ∧
  (1 ≠ 1 - Rlog 2)%R ∧
  ¬ shared_by_group_size Rminus Rlog (dsr2lm cx_fresh) [2; 1]%R
      [2 - Rlog 1; 1; 1]%R.
Proof.
  assert (1 ≠ 1 - Rlog 2)%R as Hne by (pose proof Rlog_2_pos; lra).
  repeat split; try reflexivity; [exact Hne |].
  intros Hall. specialize (Hall 1 1%Z 1%R eq_refl eq_refl).
  injection Hall as Hall. exact (Hne Hall).
Qed.


(** C3 as stated fails.  The object [nt_fresh] is constructed from a
    vocabulary without ['TERMINAL'], with no input variable and
    [prob_sharing=True]; on the batch [[1]], of size 1 and holding the
    index of the search token ['sin'], the session runs and the call
    raises [KeyError('TERMINAL')]: no vector is returned. *)
Lemma prior_not_returned_without_terminal :
  __init__ ex_functions 0 nt_vocab (PyBool true) = Ok nt_fresh ∧
  length [1%Z] = 1 ∧
  _prep nt_fresh [1%Z] = Ok [1%Z] ∧
  ex_run [1%Z] None = Ok ([1], [[2; 1; / 2]%R]) ∧
  get_lm_prior Rminus Rlog ex_run nt_fresh [1%Z]
  = (set_next_state nt_fresh (Some [1]), Raise (KeyError "TERMINAL")).
Proof.
  repeat split; reflexivity.
Qed.

(** * Further properties of [LModel] *)

(** ** Case and keys in [set_lib_to_lib] *)

Lemma lower_char_idemp (c : ascii) : lower_char (lower_char c) = lower_char c.
Proof. destruct c as [[] [] [] [] [] [] [] []]; reflexivity. Qed.

Lemma lower_idemp (s : string) : lower (lower s) = lower s.
Proof. induction s as [|c s IH]; simpl; [done |]. by rewrite lower_char_idemp, IH. Qed.

Lemma lower_char_not_T (c : ascii) : lower_char c ≠ "T"%char.
Proof. destruct c as [[] [] [] [] [] [] [] []]; discriminate. Qed.

Lemma lower_not_TERMINAL (s : string) : lower s ≠ "TERMINAL"%string.
Proof.
  destruct s as [|c s]; simpl; [discriminate |].
  intros [= H _]. by apply lower_char_not_T in H.
Qed.

Lemma comprehension_ext {A B} (f g : A → result B) (l : list A) :
  (∀ x, x ∈ l → f x = g x) → comprehension f l = comprehension g l.
Proof.
  induction l as [|x l IH]; intros Hfg; [done |]. simpl.
  rewrite (Hfg x) by left. rewrite IH; [done |]. intros y Hy. apply Hfg. by right.
Qed.

Lemma comprehension_fmap {A B C} (f : B → result C) (g : A → B) (l : list A) :
  comprehension f (g <$> l) = comprehension (λ x, f (g x)) l.
Proof.
  induction l as [|x l IH]; [done |].
  by rewrite fmap_cons, !comprehension_cons, IH.
Qed.

Lemma getitem_readable (vocab : gmap string Z) (k : string) :
  k = "TERMINAL"%string ∨ lower k = k →
  getitem (filter readable_key vocab) k = getitem vocab k.
Proof.
  intros Hk. unfold getitem. destruct (vocab !! k) as [v|] eqn:E.
  - assert (filter readable_key vocab !! k = Some v) as ->; [| done].
    apply map_lookup_filter_Some. split; [done |]. exact Hk.
  - assert (filter readable_key vocab !! k = None) as ->; [| done].
    apply map_lookup_filter_None. by left.
Qed.

(** X5. The alignment does not see the case of the function names, and it
    reads the vocabulary at the key ['TERMINAL'] and at keys without upper
    case letters only: the tables, or the exception, are the same for the
    lower-cased names and for the vocabulary without its other keys, and
    no function name is looked up at ['TERMINAL']. *)
Theorem alignment_ignores_case (vocab : gmap string Z) (fs : list string) (n : Z) :
  set_lib_to_lib vocab (lower <$> fs) n = set_lib_to_lib vocab fs n ∧
  set_lib_to_lib (filter readable_key vocab) fs n = set_lib_to_lib vocab fs n ∧
  (∀ func, lower func ≠ "TERMINAL"%string).
Proof.
  split; [| split; [| exact lower_not_TERMINAL]].
  - unfold set_lib_to_lib. rewrite comprehension_fmap.
    rewrite (comprehension_ext (λ x, getitem vocab (lower (lower x)))
                               (λ func, getitem vocab (lower func))); [done |].
    intros x _. by rewrite lower_idemp.
  - unfold set_lib_to_lib.
    rewrite (comprehension_ext (λ _, getitem (filter readable_key vocab) "TERMINAL")
                               (λ _, getitem vocab "TERMINAL"))
      by (intros; apply getitem_readable; by left).
    rewrite (comprehension_ext (λ func, getitem (filter readable_key vocab) (lower func))
                               (λ func, getitem vocab (lower func)))
      by (intros; apply getitem_readable; right; apply lower_idemp).
    done.
Qed.

(** ** The batch of previous tokens *)

Section BridgeExtras.

Context {num : Type} {RecurrentState : Type}.
Variable fsub : num → num → num.
Variable np_log : Z → num.
Variable sess_run :
  list Z → option RecurrentState → result (RecurrentState * list (list num)).

Local Abbreviation LM := (@LModel RecurrentState).
Local Abbreviation init := (@__init__ RecurrentState).
Local Abbreviation logit_to_prior := (_logit_to_prior fsub np_log).
Local Abbreviation lm_prior := (get_lm_prior fsub np_log sess_run).
Local Abbreviation reach := (reachable fsub np_log sess_run).

Lemma lm_prior_prep_eq (self : LM) (next_input next_input' : list Z) :
  _prep self next_input = _prep self next_input' →
  lm_prior self next_input = lm_prior self next_input'.
Proof. intros H. unfold get_lm_prior. by rewrite H. Qed.

Lemma prep_pointwise (self : LM) (next_input next_input' : list Z) :
  Forall2 (λ a b, np_get (dsr2lm self) a = np_get (dsr2lm self) b)
          next_input next_input' →
  _prep self next_input = _prep self next_input'.
Proof.
  unfold _prep. induction 1 as [|a b l l' Hab _ IH]; [done |].
  by rewrite !comprehension_cons, Hab, IH.
Qed.

(** The table of an object reached from a freshly constructed one. *)
Lemma reachable_table (fs : list string) (n : Z) (vocab : gmap string Z)
    (ps : PyVal) (fresh self : LM) :
  init fs n vocab ps = Ok fresh → reach fresh self →
  length (dsr2lm self) = Z.to_nat n + length fs ∧
  (∀ i, i < Z.to_nat n → ∃ t, vocab !! "TERMINAL" = Some t ∧ dsr2lm self !! i = Some t) ∧
  prob_sharing self = ps ∧ lm_token2idx self = vocab ∧ dsr_n_input_var self = n.
Proof.
  intros Hinit Hreach.
  apply (reachable_same_tables fsub np_log sess_run) in Hreach
    as (Hsn & Hsp & Hsv & Hsd & _).
  apply init_Ok in Hinit as (d & l & Hset & ->). simpl in *.
  destruct (set_lib_to_lib_table _ _ _ _ _ Hset) as (Hd & Hterm & _).
  rewrite Hsd. done.
Qed.

Lemma logit_to_prior_gathered (self : LM) (logit prior : list (list num))
    (b : nat) (prow : list num) :
  logit_to_prior self logit = Ok prior → prior !! b = Some prow →
  ∃ row', gather_row (dsr2lm self) row' = Ok prow.
Proof.
  unfold _logit_to_prior. intros H Hb. apply bind_Ok in H as (logit' & _ & H).
  apply comprehension_Ok in H.
  destruct (Forall2_lookup_r _ _ _ _ _ H Hb) as (row' & _ & Hg). eauto.
Qed.

(** X1. The prior does not tell the input variables apart.  Two batches
    that differ only in which input variable stands at a position give
    the same call: the same result and the same object.  And in every
    vector a call returns, the entries of the input variables are equal. *)
Theorem input_variables_indistinguishable (fs : list string) (n : Z)
    (vocab : gmap string Z) (ps : PyVal) (fresh self : LM) :
  init fs n vocab ps = Ok fresh → reach fresh self →
  (∀ next_input next_input',
     Forall2 (λ a b, a = b ∨ ((0 ≤ a < n)%Z ∧ (0 ≤ b < n)%Z))
             next_input next_input' →
     lm_prior self next_input = lm_prior self next_input') ∧
  (∀ next_input self' prior b prow i i',
     lm_prior self next_input = (self', Ok prior) → prior !! b = Some prow →
     i < Z.to_nat n → i' < Z.to_nat n → prow !! i = prow !! i').
Proof.
  intros Hinit Hreach.
  destruct (reachable_table _ _ _ _ _ _ Hinit Hreach) as (Hlen & Hterm & _).
  assert (Hvar : ∀ a, (0 ≤ a < n)%Z →
            ∃ t, vocab !! "TERMINAL" = Some t ∧ np_get (dsr2lm self) a = Ok t).
  { intros a Ha. destruct (Hterm (Z.to_nat a)) as (t & Ht & Hd); [lia |].
    exists t. split; [done |]. apply np_get_Ok. exists (Z.to_nat a). split; [| done].
    apply np_index_Ok. left. split; [lia | done]. }
  split.
  - intros next_input next_input' Hsame. apply lm_prior_prep_eq, prep_pointwise.
    eapply Forall2_impl; [exact Hsame |]. intros a b [-> | [Ha Hb]]; [done |].
    destruct (Hvar a Ha) as (t & Ht & ->). destruct (Hvar b Hb) as (t' & Ht' & ->).
    congruence.
  - intros next_input self' prior b prow i i' Hcall Hb Hi Hi'.
    apply lm_prior_Ok in Hcall as (x & st & lg & _ & _ & -> & Hprior).
    destruct (logit_to_prior_gathered _ _ _ _ _ Hprior Hb) as (row' & Hg).
    simpl in Hg.
    destruct (Hterm i Hi) as (t & Ht & Hd). destruct (Hterm i' Hi') as (t' & Ht' & Hd').
    assert (t' = t) as -> by congruence.
    destruct (gather_row_lookup _ _ _ _ _ Hg Hd) as (v & Hv & ->).
    destruct (gather_row_lookup _ _ _ _ _ Hg Hd') as (v' & Hv' & ->).
    congruence.
Qed.

(** X2. A batch of signed 64-bit indices that holds an index outside the
    library, below [-len] or from [len] on, with [len] the number of
    search tokens, makes the call raise [IndexError] before the session is
    run: the object, its held state included, stays as it was. *)
Theorem index_outside_library_raises (fs : list string) (n : Z)
    (vocab : gmap string Z) (ps : PyVal) (fresh self : LM) (next_input : list Z) :
  init fs n vocab ps = Ok fresh → reach fresh self →
  Forall (λ z, (- 2 ^ 63 ≤ z < 2 ^ 63)%Z) next_input →
  Exists (λ z, ¬ (- Z.of_nat (Z.to_nat n + length fs) ≤ z
                  < Z.of_nat (Z.to_nat n + length fs))%Z) next_input →
  lm_prior self next_input = (self, Raise IndexError).
Proof.
  intros Hinit Hreach _ Hout.
  destruct (reachable_table _ _ _ _ _ _ Hinit Hreach) as (Hlen & _).
  unfold get_lm_prior.
  destruct (_prep self next_input) as [x|e] eqn:Hprep.
  - exfalso. assert (returns (_prep self next_input)) as Hret by (by exists x).
    apply prep_returns in Hret. rewrite Hlen in Hret.
    apply Exists_exists in Hout as (z & Hz & Hbad).
    rewrite Forall_forall in Hret. exact (Hbad (Hret z Hz)).
  - by rewrite (prep_Raise _ _ _ Hprep).
Qed.


(** X4. A vocabulary without ['TERMINAL'] is accepted at construction when
    there is no input variable.  With [prob_sharing=True] every call on
    such an object in which the session runs raises [KeyError] for
    ['TERMINAL'], and the state the session produced is held all the
    same. *)
Theorem missing_terminal_fails_each_call (fs : list string) (n : Z)
    (vocab : gmap string Z) (fresh self : LM) (next_input x : list Z)
    (st : RecurrentState) (lg : list (list num)) :
  vocab !! "TERMINAL" = None →
  init fs n vocab (PyBool true) = Ok fresh → reach fresh self →
  _prep self next_input = Ok x → sess_run x (next_state self) = Ok (st, lg) →
  (n ≤ 0)%Z ∧
  lm_prior self next_input
  = (set_next_state self (Some st), Raise (KeyError "TERMINAL")).
Proof.
  intros Hnone Hinit Hreach Hprep Hrun.
  destruct (reachable_table _ _ _ _ _ _ Hinit Hreach) as (_ & Hterm & Hps & Hv & _).
  split.
  - destruct (decide (n ≤ 0)%Z) as [|Hpos]; [done | exfalso].
    destruct (Hterm 0) as (t & Ht & _); [lia | congruence].
  - unfold get_lm_prior. rewrite Hprep, Hrun. cbv zeta. f_equal.
    rewrite logit_to_prior_on by (simpl; by rewrite Hps).
    simpl. rewrite Hv. unfold getitem. by rewrite Hnone.
Qed.

End BridgeExtras.

(** * Properties of the Pareto filter *)

Section ParetoFacts.

Context {Row V : Type}.
Variable r : Row → V.
Variable complexity : Row → V.
Variable ge : V → V → bool.
Variable sort_values : list Row → list Row.

Local Abbreviation keep := (pareto_keep r complexity ge).
Local Abbreviation loop := (pareto_rows r complexity ge).
Local Abbreviation strict := (strictly_improving r complexity ge).

Lemma pareto_keep_first (row : Row) : keep [] 0 row = true.
Proof. reflexivity. Qed.

Lemma pareto_keep_later (filtered : list Row) (index : nat) (row : Row) :
  keep filtered (S index) row = true ↔
    ∀ f, f ∈ filtered →
      ge (r f) (r row) = false ∧ ge (complexity f) (complexity row) = false.
Proof.
  unfold pareto_keep. simpl. rewrite orb_false_r, andb_true_iff, !negb_true_iff.
  split.
  - intros [Hr Hc] f Hf. apply list_elem_of_In in Hf. split.
    + destruct (ge (r f) (r row)) eqn:E; [| done].
      assert (existsb (λ f, ge (r f) (r row)) filtered = true); [| congruence].
      apply existsb_exists. eauto.
    + destruct (ge (complexity f) (complexity row)) eqn:E; [| done].
      assert (existsb (λ f, ge (complexity f) (complexity row)) filtered = true);
        [| congruence].
      apply existsb_exists. eauto.
  - intros Hall. split.
    + destruct (existsb _ filtered) eqn:E; [| done].
      apply existsb_exists in E as (f & Hf & Hge). apply list_elem_of_In in Hf.
      destruct (Hall f Hf). congruence.
    + destruct (existsb (λ f, ge (complexity f) (complexity row)) filtered) eqn:E;
        [| done].
      apply existsb_exists in E as (f & Hf & Hge). apply list_elem_of_In in Hf.
      destruct (Hall f Hf). congruence.
Qed.

Lemma strictly_improving_snoc (filtered : list Row) (row : Row) :
  strict filtered →
  (∀ f, f ∈ filtered →
     ge (r f) (r row) = false ∧ ge (complexity f) (complexity row) = false) →
  strict (filtered ++ [row]).
Proof.
  intros Hstrict Hrow i j a b Hij Hi Hj.
  destruct (decide (j < length filtered)) as [Hlt|Hge].
  - rewrite lookup_app_l in Hi, Hj by lia. exact (Hstrict i j a b Hij Hi Hj).
  - assert (j = length filtered) as ->.
    { apply lookup_lt_Some in Hj. rewrite length_app in Hj. simpl in Hj. lia. }
    rewrite lookup_app_l in Hi by lia.
    rewrite lookup_app_r, Nat.sub_diag in Hj by lia. injection Hj as <-.
    apply Hrow. by eapply list_elem_of_lookup_2.
Qed.

(** The loop keeps the rows appended so far strictly improving, as long
    as nothing has been appended before the row at index 0. *)
Lemma pareto_rows_strict (index : nat) (rows filtered : list Row) :
  (index = 0 → filtered = []) → strict filtered →
  strict (loop index rows filtered).
Proof.
  revert index filtered. induction rows as [|row rows IH]; intros index filtered H0 Hs.
  - exact Hs.
  - simpl. apply IH; [discriminate |].
    destruct (keep filtered index row) eqn:Hkeep; [| exact Hs].
    destruct index as [|index].
    + rewrite (H0 eq_refl). intros i j a b Hij Hi Hj.
      apply lookup_lt_Some in Hj. simpl in Hj. lia.
    + apply strictly_improving_snoc; [exact Hs |].
      exact (proj1 (pareto_keep_later filtered index row) Hkeep).
Qed.

(** X6. In the frame the Pareto filter returns, every row has a strictly
    greater complexity and a strictly greater reward than all rows before
    it: for a row [a] before a row [b], neither [a.r >= b.r] nor
    [a.complexity >= b.complexity] holds.  So of the rows of one
    complexity at most one is kept, whatever their rewards. *)
Theorem pareto_filter_strictly_improving (df : list Row) :
  strictly_improving r complexity ge (_apply_pareto_filter r complexity ge sort_values df).
Proof.
  unfold _apply_pareto_filter. apply pareto_rows_strict; [done |].
  intros i j a b _ Hi. by rewrite lookup_nil in Hi.
Qed.

Lemma pareto_rows_prefix (index : nat) (rows filtered : list Row) :
  ∃ kept, loop index rows filtered = filtered ++ kept ∧ kept `sublist_of` rows.
Proof.
  revert index filtered. induction rows as [|row rows IH]; intros index filtered.
  - exists []. by rewrite app_nil_r.
  - simpl. destruct (keep filtered index row).
    + destruct (IH (S index) (filtered ++ [row])) as (kept & -> & Hsub).
      exists (row :: kept). rewrite <- app_assoc. split; [done |]. by constructor.
    + destruct (IH (S index) filtered) as (kept & -> & Hsub).
      exists kept. split; [done |]. by constructor.
Qed.

(** A row the loop passes is appended or blocked by a row appended before. *)
Lemma pareto_rows_blocked (index : nat) (rows filtered : list Row) (row : Row) :
  row ∈ rows →
  row ∈ loop index rows filtered ∨
  ∃ f, f ∈ loop index rows filtered ∧
       (ge (r f) (r row) = true ∨ ge (complexity f) (complexity row) = true).
Proof.
  revert index filtered. induction rows as [|row' rows IH]; intros index filtered Hin.
  - by apply elem_of_nil in Hin.
  - simpl. apply elem_of_cons in Hin as [-> | Hin]; [| by apply IH].
    destruct (pareto_rows_prefix (S index) rows
                (if keep filtered index row' then filtered ++ [row'] else filtered))
      as (kept & -> & _).
    destruct (keep filtered index row') eqn:Hkeep.
    + left. rewrite !elem_of_app, list_elem_of_singleton. auto.
    + right. unfold pareto_keep in Hkeep.
      apply orb_false_iff in Hkeep as [Hkeep _].
      apply andb_false_iff in Hkeep as [Hkeep | Hkeep];
        apply negb_false_iff, existsb_exists in Hkeep as (f & Hf & Hge);
        apply list_elem_of_In in Hf; exists f; rewrite elem_of_app; auto.
Qed.

(** X7. The Pareto filter returns rows of the sorted frame, in their
    order; the first row of the sorted frame is always the first row of
    the result; and every row of the frame is either returned or blocked
    by a returned row that is [>=] it in reward or in complexity. *)
Theorem pareto_filter_keeps_or_blocks (df : list Row) :
  _apply_pareto_filter r complexity ge sort_values df `sublist_of` sort_values df ∧
  head (_apply_pareto_filter r complexity ge sort_values df) = head (sort_values df) ∧
  (∀ row, row ∈ sort_values df →
     row ∈ _apply_pareto_filter r complexity ge sort_values df ∨
     ∃ f, f ∈ _apply_pareto_filter r complexity ge sort_values df ∧
          (ge (r f) (r row) = true ∨ ge (complexity f) (complexity row) = true)).
Proof.
  unfold _apply_pareto_filter. split; [| split].
  - destruct (pareto_rows_prefix 0 (sort_values df) []) as (kept & -> & Hsub). done.
  - destruct (sort_values df) as [|row rows]; [done |]. simpl.
    destruct (pareto_rows_prefix 1 rows [row]) as (kept & -> & _). done.
  - intros row Hin. by apply pareto_rows_blocked.
Qed.

(** Over strictly improving rows the loop appends every row. *)
Lemma pareto_rows_fixpoint (index : nat) (rows filtered : list Row) :
  (index = 0 → filtered = []) → strict (filtered ++ rows) →
  loop index rows filtered = filtered ++ rows.
Proof.
  revert index filtered. induction rows as [|row rows IH]; intros index filtered H0 Hs.
  - by rewrite app_nil_r.
  - simpl. assert (keep filtered index row = true) as ->.
    { destruct index as [|index]; [by rewrite (H0 eq_refl) |].
      apply (pareto_keep_later filtered index row). intros f Hf. apply list_elem_of_lookup in Hf as [i Hi].
      apply (Hs i (length filtered)).
      - by eapply lookup_lt_Some.
      - by rewrite lookup_app_l by (by eapply lookup_lt_Some).
      - by rewrite lookup_app_r, Nat.sub_diag by lia. }
    rewrite IH; [by rewrite <- app_assoc | discriminate | by rewrite <- app_assoc].
Qed.

(** X8. Filtering twice is filtering once, whenever sorting the filtered
    frame again leaves it as it is, as a sort does for complexities that
    increase strictly. *)
Theorem pareto_filter_idempotent (df : list Row) :
  sort_values (_apply_pareto_filter r complexity ge sort_values df)
  = _apply_pareto_filter r complexity ge sort_values df →
  _apply_pareto_filter r complexity ge sort_values
    (_apply_pareto_filter r complexity ge sort_values df)
  = _apply_pareto_filter r complexity ge sort_values df.
Proof.
  intros Hsort. unfold _apply_pareto_filter at 1. rewrite Hsort.
  apply pareto_rows_fixpoint; [done |]. apply pareto_rows_strict; [done |].
  intros i j a b _ Hi. by rewrite lookup_nil in Hi.
Qed.

End ParetoFacts.

(** ** Concrete instances *)

Lemma input_variables_indistinguishable_witness :
  get_lm_prior Rminus Rlog ex_run (ex_fresh 2 (PyBool true)) [0; 2]%Z
  = get_lm_prior Rminus Rlog ex_run (ex_fresh 2 (PyBool true)) [1; 2]%Z.
Proof.
  apply (input_variables_indistinguishable Rminus Rlog ex_run ex_functions 2 ex_vocab
           (PyBool true) (ex_fresh 2 (PyBool true)) (ex_fresh 2 (PyBool true))).
  - reflexivity.
  - constructor.
  - constructor; [right; lia |]. constructor; [by left | constructor].
Defined.

Lemma index_outside_library_raises_witness :
  get_lm_prior Rminus Rlog ex_run (ex_fresh 2 (PyBool true)) [0; 4]%Z
  = (ex_fresh 2 (PyBool true), Raise IndexError).
Proof.
  apply (index_outside_library_raises Rminus Rlog ex_run ex_functions 2 ex_vocab
           (PyBool true) (ex_fresh 2 (PyBool true))).
  - reflexivity.
  - constructor.
  - repeat constructor; lia.
  - apply Exists_cons_tl, Exists_cons_hd. simpl. lia.
Defined.


Lemma missing_terminal_fails_each_call_witness :
  (0 ≤ 0)%Z ∧
  get_lm_prior Rminus Rlog ex_run nt_fresh [1]%Z
  = (set_next_state nt_fresh (Some [1]), Raise (KeyError "TERMINAL")).
Proof.
  apply (missing_terminal_fails_each_call Rminus Rlog ex_run ex_functions 0 nt_vocab
           nt_fresh nt_fresh [1]%Z [1]%Z [1] [[2; 1; / 2]%R]).
  - reflexivity.
  - reflexivity.
  - constructor.
  - reflexivity.
  - reflexivity.
Defined.

Example ex_frame_filtered :
  _apply_pareto_filter fst snd Z.geb sort_by_complexity ex_frame = [(2, 1); (5, 3); (7, 4)]%Z.
Proof. reflexivity. Qed.

Lemma pareto_filter_idempotent_witness :
  _apply_pareto_filter fst snd Z.geb sort_by_complexity
    (_apply_pareto_filter fst snd Z.geb sort_by_complexity ex_frame)
  = _apply_pareto_filter fst snd Z.geb sort_by_complexity ex_frame.
Proof.
  apply (pareto_filter_idempotent fst snd Z.geb sort_by_complexity ex_frame).
  reflexivity.
Defined.

(** * Properties of the command line *)

(** ** Texts *)

Lemma str_app_cons (c : ascii) (a b : string) :
  String c a +:+ b = String c (a +:+ b).
Proof. reflexivity. Qed.

Lemma str_app_nil_l (b : string) : EmptyString +:+ b = b.
Proof. reflexivity. Qed.

Ltac app_simpl := rewrite ?str_app_cons, ?str_app_nil_l.

Lemma str_app_nil_r (s : string) : s +:+ EmptyString = s.
Proof. induction s as [|c s IH]; app_simpl; [done | by rewrite IH]. Qed.

Lemma str_app_assoc (a b c : string) : (a +:+ b) +:+ c = a +:+ (b +:+ c).
Proof. induction a as [|x a IH]; app_simpl; [done | by rewrite IH]. Qed.

Lemma any_char_app (p : ascii → bool) (a b : string) :
  any_char p (a +:+ b) = any_char p a || any_char p b.
Proof.
  induction a as [|c a IH]; app_simpl; simpl; [done | by rewrite IH, orb_assoc].
Qed.

Lemma all_char_app (p : ascii → bool) (a b : string) :
  all_char p (a +:+ b) = all_char p a && all_char p b.
Proof.
  induction a as [|c a IH]; app_simpl; simpl; [done | by rewrite IH, andb_assoc].
Qed.

Lemma all_char_none (p q : ascii → bool) (s : string) :
  (∀ c, q c = true → p c = false) → all_char q s = true → any_char p s = false.
Proof.
  intros Hpq. induction s as [|c s IH]; simpl; [done |].
  intros [Hc Hs]%andb_true_iff. by rewrite (Hpq c Hc), IH.
Qed.

Lemma lstrip_clean (p : ascii → bool) (s : string) :
  match s with EmptyString => True | String c _ => p c = false end →
  lstrip p s = s.
Proof. destruct s as [|c s]; simpl; [done |]. by intros ->. Qed.

Lemma rstrip_blank (p : ascii → bool) (ws : string) :
  all_char p ws = true → rstrip p ws = EmptyString.
Proof.
  induction ws as [|c ws IH]; simpl; [done |].
  intros [Hc Hws]%andb_true_iff. by rewrite IH, Hc.
Qed.

Lemma rstrip_ends_without (p : ascii → bool) (a ws : string) :
  ends_without p a = true → all_char p ws = true → rstrip p (a +:+ ws) = a.
Proof.
  intros Ha Hws. induction a as [|c a IH]; [done |].
  destruct a as [|c' a'].
  - app_simpl. simpl in *. rewrite (rstrip_blank p ws Hws). simpl.
    apply negb_true_iff in Ha. by rewrite Ha.
  - rewrite str_app_cons.
    change (rstrip p (String c (String c' a' +:+ ws)))
      with (let t := rstrip p (String c' a' +:+ ws) in
            if p c && is_empty t then EmptyString else String c t).
    rewrite IH by exact Ha. simpl. by rewrite andb_false_r.
Qed.

Lemma ends_without_app (p : ascii → bool) (a b : string) :
  ends_without p b = true → ends_without p (a +:+ b) = true.
Proof.
  intros Hb. induction a as [|c a IH]; [done |]. rewrite str_app_cons. simpl.
  destruct (a +:+ b) eqn:E; [| done].
  destruct a; [by rewrite str_app_nil_l in E; subst b | discriminate].
Qed.

Lemma strip_id (p : ascii → bool) (s : string) :
  all_char (λ c, negb (p c)) s = true → rstrip p (lstrip p s) = s.
Proof.
  intros Hs. rewrite lstrip_clean.
  - induction s as [|c s IH]; [done |]. simpl in *.
    apply andb_true_iff in Hs as [Hc Hs]. apply negb_true_iff in Hc.
    by rewrite IH, Hc.
  - destruct s as [|c s]; [done |]. simpl in Hs.
    apply andb_true_iff in Hs as [Hc _]. by apply negb_true_iff.
Qed.

(** ** [split] *)

Lemma prefix_nil (s : string) : String.prefix EmptyString s = true.
Proof. by destruct s. Qed.

Lemma prefix_cons (a b : ascii) (s1 s2 : string) :
  String.prefix (String a s1) (String b s2) = Ascii.eqb b a && String.prefix s1 s2.
Proof.
  change (String.prefix (String a s1) (String b s2))
    with (match ascii_dec a b with
          | left _ => String.prefix s1 s2
          | right _ => false
          end).
  destruct (ascii_dec a b) as [->|Hne].
  - by rewrite Ascii.eqb_refl.
  - assert (Ascii.eqb b a = false) as -> by (apply Ascii.eqb_neq; congruence). done.
Qed.

Lemma prefix_char (d c : ascii) (s : string) :
  String.prefix (String d EmptyString) (String c s) = Ascii.eqb c d.
Proof. by rewrite prefix_cons, prefix_nil, andb_true_r. Qed.

Lemma split_char_none (d : ascii) (cur s : string) :
  any_char (λ c, Ascii.eqb c d) s = false →
  split_go (String d EmptyString) 0 cur s = [cur +:+ s].
Proof.
  revert cur. induction s as [|c s IH]; intros cur Hs.
  - by rewrite str_app_nil_r.
  - simpl in Hs. apply orb_false_iff in Hs as [Hc Hs].
    cbn [split_go]. rewrite prefix_char, Hc, IH by done.
    by rewrite str_app_assoc.
Qed.

Lemma split_char_first (d : ascii) (cur a b : string) :
  any_char (λ c, Ascii.eqb c d) a = false →
  split_go (String d EmptyString) 0 cur (a +:+ String d b)
  = (cur +:+ a) :: split_go (String d EmptyString) 0 EmptyString b.
Proof.
  revert cur. induction a as [|c a IH]; intros cur Ha.
  - app_simpl. cbn [split_go]. rewrite prefix_char, Ascii.eqb_refl. simpl.
    by rewrite str_app_nil_r.
  - simpl in Ha. apply orb_false_iff in Ha as [Hc Ha].
    app_simpl. cbn [split_go]. rewrite prefix_char, Hc, IH by done.
    by rewrite str_app_assoc.
Qed.

Lemma prefix_dashes (c : ascii) (s : string) :
  String.prefix "--" (String c s)
  = Ascii.eqb c "-" && match s with
                       | EmptyString => false
                       | String c' _ => Ascii.eqb c' "-"
                       end.
Proof.
  rewrite prefix_cons. destruct s as [|c' s]; [done |].
  by rewrite prefix_char.
Qed.

Lemma dash_safe_prefix (c : ascii) (t more : string) :
  dash_safe (String c t) = true →
  (more = EmptyString ∨ ∃ m, more = "--" +:+ m) →
  String.prefix "--" (String c (t +:+ more)) = false.
Proof.
  intros Hsafe Hmore. rewrite prefix_dashes. simpl in Hsafe.
  destruct (Ascii.eqb c "-"); [| done]. simpl.
  destruct t as [|c' t]; [discriminate |]. rewrite str_app_cons.
  apply andb_true_iff in Hsafe as [Hc' _]. by apply negb_true_iff in Hc'.
Qed.

Lemma dash_safe_tail (c : ascii) (t : string) :
  dash_safe (String c t) = true → t ≠ EmptyString → dash_safe t = true.
Proof.
  simpl. destruct (Ascii.eqb c "-"); [| done].
  destruct t as [|c' t]; [done |]. by intros [_ H]%andb_true_iff.
Qed.

(** The pieces of a line around ["--"]: a dash-safe text is one piece. *)
Lemma split_dashes_last (cur t : string) :
  dash_safe t = true → split_go "--" 0 cur t = [cur +:+ t].
Proof.
  revert cur. induction t as [|c t IH]; intros cur Hsafe.
  - by rewrite str_app_nil_r.
  - cbn [split_go].
    pose proof (dash_safe_prefix c t EmptyString Hsafe (or_introl eq_refl)) as Hp.
    rewrite str_app_nil_r in Hp. rewrite Hp.
    destruct t as [|c' t'].
    + reflexivity.
    + rewrite IH by (by eapply dash_safe_tail). by rewrite str_app_assoc.
Qed.

Lemma split_dashes_sep (more : string) :
  split_go "--" 0 EmptyString more = split more "--".
Proof. reflexivity. Qed.

Lemma split_dashes_first (cur t more : string) :
  dash_safe t = true →
  split_go "--" 0 cur (t +:+ "--" +:+ more)
  = (cur +:+ t) :: split_go "--" 0 EmptyString more.
Proof.
  revert cur. induction t as [|c t IH]; intros cur Hsafe.
  - rewrite str_app_nil_l, str_app_nil_r.
    change ("--" +:+ more) with (String "-" (String "-" more)).
    cbn [split_go]. rewrite prefix_dashes. reflexivity.
  - rewrite str_app_cons. cbn [split_go].
    rewrite (dash_safe_prefix c t ("--" +:+ more) Hsafe) by eauto.
    assert (dash_safe t = true) as Ht.
    { destruct t as [|c' t']; [done |]. by eapply dash_safe_tail. }
    rewrite IH by exact Ht. by rewrite str_app_assoc.
Qed.

Lemma dash_safe_app (a b : string) :
  dash_safe a = true → dash_safe b = true → dash_safe (a +:+ b) = true.
Proof.
  intros Ha Hb. induction a as [|c a IH]; [done |].
  destruct a as [|c' a'].
  - simpl in Ha. destruct (Ascii.eqb c "-") eqn:Hc; [discriminate |].
    app_simpl. simpl. by rewrite Hc.
  - specialize (IH (dash_safe_tail _ _ Ha ltac:(done))).
    rewrite !str_app_cons in *.
    simpl in Ha |- *. destruct (Ascii.eqb c "-"); [| done].
    apply andb_true_iff in Ha as [Hc' _]. rewrite Hc'. exact IH.
Qed.

Lemma dash_safe_no_dash (s : string) :
  any_char (λ c, Ascii.eqb c "-") s = false → dash_safe s = true.
Proof.
  induction s as [|c s IH]; [done |]. simpl.
  intros [Hc Hs]%orb_false_iff. rewrite Hc. by apply IH.
Qed.

(** ** Numerals *)

Lemma pretty_N_go_app (x : N) (s : string) :
  pretty_N_go x s = pretty_N_go x EmptyString +:+ s.
Proof.
  revert s. induction (N.lt_wf_0 x) as [x _ IH]; intros s.
  destruct (decide (x = 0)%N) as [->|Hx].
  - by rewrite !pretty_N_go_0.
  - rewrite !(pretty_N_go_step x) by lia.
    rewrite (IH (x `div` 10)%N) by (apply N.div_lt; lia).
    rewrite (IH (x `div` 10)%N ltac:(apply N.div_lt; lia) (String _ EmptyString)).
    by rewrite str_app_assoc.
Qed.

Lemma pretty_N_go_snoc (x : N) :
  (0 < x)%N →
  pretty_N_go x EmptyString
  = pretty_N_go (x `div` 10) EmptyString
    +:+ String (pretty_N_char (x `mod` 10)) EmptyString.
Proof. intros Hx. by rewrite pretty_N_go_step, pretty_N_go_app. Qed.

Lemma pretty_N_char_digit (m : N) : isdigit (pretty_N_char m) = true.
Proof. unfold pretty_N_char. by repeat case_match. Qed.

Lemma pretty_N_char_value (m : N) : (m < 10)%N → digit_value (pretty_N_char m) = m.
Proof.
  intros Hm.
  assert (m = 0 ∨ m = 1 ∨ m = 2 ∨ m = 3 ∨ m = 4 ∨ m = 5 ∨ m = 6 ∨ m = 7 ∨ m = 8
          ∨ m = 9)%N as Hcases by lia.
  repeat destruct Hcases as [-> | Hcases]; try reflexivity. by subst m.
Qed.

Lemma pretty_N_go_digits (x : N) : all_char isdigit (pretty_N_go x EmptyString) = true.
Proof.
  induction (N.lt_wf_0 x) as [x _ IH].
  destruct (decide (x = 0)%N) as [->|Hx]; [done |].
  rewrite pretty_N_go_snoc, all_char_app by lia.
  rewrite IH by (apply N.div_lt; lia). simpl. by rewrite pretty_N_char_digit.
Qed.

Lemma digits_value_app (acc : N) (a b : string) :
  digits_value acc (a +:+ b) = digits_value (digits_value acc a) b.
Proof.
  revert acc. induction a as [|c a IH]; intros acc; [done |].
  rewrite str_app_cons. simpl. by rewrite IH.
Qed.

Lemma digits_value_pretty (x : N) : digits_value 0 (pretty_N_go x EmptyString) = x.
Proof.
  induction (N.lt_wf_0 x) as [x _ IH].
  destruct (decide (x = 0)%N) as [->|Hx]; [done |].
  rewrite pretty_N_go_snoc, digits_value_app by lia.
  rewrite IH by (apply N.div_lt; lia). simpl.
  rewrite pretty_N_char_value by (apply N.mod_lt; lia).
  pose proof (N.div_mod x 10). lia.
Qed.

Lemma digits_go_digits (s : string) (acc : N) (n : nat) (b : bool) :
  all_char isdigit s = true → s ≠ EmptyString →
  digits_go acc n b s = Some (digits_value acc s, n + String.length s).
Proof.
  revert acc n b. induction s as [|c s IH]; intros acc n b Hs Hne; [done |].
  simpl in Hs. apply andb_true_iff in Hs as [Hc Hs]. simpl. rewrite Hc.
  destruct s as [|c' s'].
  - simpl. do 2 f_equal. lia.
  - rewrite IH by done. do 2 f_equal. simpl. lia.
Qed.

Lemma pretty_N_go_not_empty (x : N) : (0 < x)%N → pretty_N_go x EmptyString ≠ EmptyString.
Proof.
  intros Hx. rewrite pretty_N_go_snoc by done.
  destruct (pretty_N_go (x `div` 10) EmptyString); discriminate.
Qed.

Lemma all_char_impl (p q : ascii → bool) (s : string) :
  (∀ c, p c = true → q c = true) → all_char p s = true → all_char q s = true.
Proof.
  intros Hpq. induction s as [|c s IH]; simpl; [done |].
  intros [Hc Hs]%andb_true_iff. by rewrite (Hpq c Hc), IH.
Qed.

Lemma pretty_Z_chars (z : Z) : all_char numeral_char (pretty z) = true.
Proof.
  assert (Hpos : ∀ p, all_char numeral_char (pretty_N_go (N.pos p) EmptyString) = true).
  { intros p. eapply all_char_impl; [| apply pretty_N_go_digits].
    intros c Hc. unfold numeral_char. by rewrite Hc. }
  destruct z as [|p|p]; [done | apply Hpos |].
  change (pretty (Z.neg p)) with ("-" +:+ pretty_N_go (N.pos p) EmptyString).
  rewrite all_char_app, Hpos. done.
Qed.

Lemma digit_not_sign (c : ascii) (s : string) :
  isdigit c = true → cut_sign (String c s) = (false, String c s).
Proof. destruct c as [[] [] [] [] [] [] [] []]; try discriminate; reflexivity. Qed.

Lemma numeral_char_not_space (c : ascii) : numeral_char c = true → negb (c_isspace c) = true.
Proof. destruct c as [[] [] [] [] [] [] [] []]; try discriminate; reflexivity. Qed.

Lemma numeral_char_not_alpha (c : ascii) : numeral_char c = true → isalpha c = false.
Proof. destruct c as [[] [] [] [] [] [] [] []]; try discriminate; reflexivity. Qed.

Lemma numeral_char_not_dot (c : ascii) : numeral_char c = true → Ascii.eqb c "." = false.
Proof. destruct c as [[] [] [] [] [] [] [] []]; try discriminate; reflexivity. Qed.

Lemma numeral_char_not_eq (c : ascii) : numeral_char c = true → Ascii.eqb c "=" = false.
Proof. destruct c as [[] [] [] [] [] [] [] []]; try discriminate; reflexivity. Qed.

Lemma numeral_char_not_isspace (c : ascii) : numeral_char c = true → isspace c = false.
Proof. destruct c as [[] [] [] [] [] [] [] []]; try discriminate; reflexivity. Qed.

Lemma int_of_str_pos (p : positive) (neg : bool) :
  ('(v, _) ← digits_go 0 0 false (pretty_N_go (N.pos p) EmptyString);
   Some (if neg then (- Z.of_N v)%Z else Z.of_N v))
  = Some (if neg then Z.neg p else Z.pos p).
Proof.
  rewrite digits_go_digits
    by (apply pretty_N_go_digits || (apply pretty_N_go_not_empty; lia)).
  simpl. rewrite digits_value_pretty. by destruct neg.
Qed.

Lemma int_of_str_pretty (z : Z) : int_of_str (pretty z) = Some z.
Proof.
  unfold int_of_str, c_strip.
  rewrite strip_id
    by (eapply all_char_impl; [apply numeral_char_not_space | apply pretty_Z_chars]).
  destruct z as [|p|p]; [done | |].
  - change (pretty (Z.pos p)) with (pretty_N_go (N.pos p) EmptyString).
    pose proof (pretty_N_go_digits (N.pos p)) as Hd.
    pose proof (pretty_N_go_not_empty (N.pos p) ltac:(lia)) as Hne.
    destruct (pretty_N_go (N.pos p) EmptyString) as [|c s] eqn:E; [done |].
    simpl in Hd. apply andb_true_iff in Hd as [Hc _].
    rewrite (digit_not_sign c s Hc), <- E. apply (int_of_str_pos p false).
  - change (pretty (Z.neg p)) with (String "-" (pretty_N_go (N.pos p) EmptyString)).
    cbn [cut_sign]. apply (int_of_str_pos p true).
Qed.

Lemma pretty_Z_has_digit (z : Z) : any_char isdigit (pretty z) = true.
Proof.
  assert (Hpos : ∀ p, any_char isdigit (pretty_N_go (N.pos p) EmptyString) = true).
  { intros p. rewrite pretty_N_go_snoc, any_char_app by lia. simpl.
    by rewrite pretty_N_char_digit, orb_true_r. }
  destruct z as [|p|p]; [done | apply Hpos |].
  change (pretty (Z.neg p)) with ("-" +:+ pretty_N_go (N.pos p) EmptyString).
  by rewrite any_char_app, Hpos, orb_true_r.
Qed.

(** X9. An integer written in decimal, as [str] writes it, is read back
    as that integer. *)
Theorem numeral_is_read_as_int (z : Z) : _get_correct_type (pretty z) = Some (CInt z).
Proof.
  unfold _get_correct_type. rewrite pretty_Z_has_digit.
  rewrite (all_char_none isalpha numeral_char)
    by (apply numeral_char_not_alpha || apply pretty_Z_chars).
  rewrite (all_char_none (λ c, Ascii.eqb c ".") numeral_char)
    by (apply numeral_char_not_dot || apply pretty_Z_chars).
  by rewrite int_of_str_pretty.
Qed.

(** ** Settings *)

Lemma blank_dash_safe (ws : string) : all_char isspace ws = true → dash_safe ws = true.
Proof.
  intros Hws. apply dash_safe_no_dash. eapply all_char_none; [| exact Hws].
  intros c. destruct c as [[] [] [] [] [] [] [] []]; try discriminate; reflexivity.
Qed.

Lemma setting_text_dash_safe (s : Setting) :
  well_formed s → dash_safe (setting_text (s_key s) (s_text s) (s_space s)) = true.
Proof.
  intros (_ & _ & Hk & _ & _ & Hv & Hws & _). unfold setting_text.
  apply dash_safe_app; [exact Hk |].
  change ("=" +:+ s_text s +:+ s_space s) with (String "=" (s_text s +:+ s_space s)).
  cbn [dash_safe]. change (Ascii.eqb "=" "-") with false. cbv iota.
  apply dash_safe_app; [exact Hv | by apply blank_dash_safe].
Qed.

Lemma cmd_setting_text (s : Setting) :
  well_formed s →
  cmd_setting (setting_text (s_key s) (s_text s) (s_space s)) = [s_key s; s_text s].
Proof.
  intros (Hk1 & Hk2 & _ & Hv1 & Hv2 & _ & Hws & _).
  unfold cmd_setting, strip, setting_text.
  rewrite lstrip_clean.
  2:{ destruct (s_key s) as [|c k]; [done |]. rewrite str_app_cons.
      simpl in Hk1. by apply negb_true_iff. }
  replace (s_key s +:+ "=" +:+ s_text s +:+ s_space s)
    with ((s_key s +:+ "=" +:+ s_text s) +:+ s_space s)
    by (by rewrite !str_app_assoc).
  rewrite rstrip_ends_without; [| | exact Hws].
  2:{ apply ends_without_app. change ("=" +:+ s_text s) with (String "=" (s_text s)).
      unfold ends_clean in Hv1. destruct (s_text s); [done | exact Hv1]. }
  rewrite any_char_app. change ("=" +:+ s_text s) with (String "=" (s_text s)).
  cbn [any_char]. rewrite Ascii.eqb_refl, orb_true_r. cbv iota.
  unfold split, no_eq in *. apply negb_true_iff in Hk2, Hv2.
  rewrite split_char_first by exact Hk2. rewrite split_char_none by exact Hv2.
  by rewrite !str_app_nil_l.
Qed.

Local Abbreviation texts settings :=
  ((λ s, setting_text (s_key s) (s_text s) (s_space s)) <$> settings).
Local Abbreviation tuples settings :=
  ((λ s, (s_key s, s_text s, s_space s)) <$> settings).

Lemma cmd_loop_settings (settings : list Setting) (params : gmap string CmdVal) :
  Forall well_formed settings →
  cmd_loop (texts settings) params
  = (foldl (λ params s, <[s_key s := s_value s]> params) params settings, false).
Proof.
  intros Hwf. revert params. induction Hwf as [|s settings Hs _ IH]; intros params.
  - done.
  - rewrite fmap_cons. cbn [cmd_loop]. rewrite (cmd_setting_text s Hs).
    destruct Hs as (_ & _ & _ & _ & _ & _ & _ & ->). apply IH.
Qed.

Lemma cmd_loop_app (l1 l2 : list string) (params : gmap string CmdVal) :
  cmd_loop (l1 ++ l2) params
  = if (cmd_loop l1 params).2 then cmd_loop l1 params
    else cmd_loop l2 (cmd_loop l1 params).1.
Proof.
  revert params. induction l1 as [|token l1 IH]; intros params; [done |].
  rewrite <- app_comm_cons. cbn [cmd_loop].
  destruct (cmd_setting token) as [|key [|value rest]]; [done | done |].
  destruct (_get_correct_type value); [apply IH | done].
Qed.

(** The tokens of a line of settings, and of what may follow them. *)
Lemma split_settings (cur t : string) (settings : list Setting) :
  dash_safe t = true → Forall well_formed settings →
  split_go "--" 0 cur (t +:+ settings_text (tuples settings))
  = (cur +:+ t) :: texts settings.
Proof.
  intros Ht Hwf. revert cur t Ht.
  induction Hwf as [|s settings Hs _ IH]; intros cur t Ht.
  - simpl. rewrite str_app_nil_r. by apply split_dashes_last.
  - rewrite !fmap_cons. cbn [settings_text].
    rewrite split_dashes_first by exact Ht. f_equal.
    rewrite IH by (by apply setting_text_dash_safe). by rewrite str_app_nil_l.
Qed.

Lemma split_settings_more (cur t more : string) (settings : list Setting) :
  dash_safe t = true → Forall well_formed settings →
  split_go "--" 0 cur (t +:+ settings_text (tuples settings) +:+ "--" +:+ more)
  = (cur +:+ t) :: texts settings ++ split more "--".
Proof.
  intros Ht Hwf. revert cur t Ht.
  induction Hwf as [|s settings Hs _ IH]; intros cur t Ht.
  - simpl. rewrite str_app_nil_l. by apply split_dashes_first.
  - rewrite !fmap_cons. cbn [settings_text]. rewrite !str_app_assoc.
    rewrite split_dashes_first by exact Ht. rewrite <- app_comm_cons. f_equal.
    rewrite IH by (by apply setting_text_dash_safe). by rewrite str_app_nil_l.
Qed.

(** X10. A command line made of a program part and settings [--key=value]
    is read back: the parameters are the settings, a later one replacing
    an earlier one of the same key, with ["mc"] set to 1 unless a setting
    gives it; no warning is added. *)
Theorem get_cmd_reads_settings (prog : string) (settings : list Setting)
    (rest warnings : list string) :
  dash_safe prog = true → Forall well_formed settings →
  _get_cmd (Some (line_of prog settings :: rest)) warnings
  = (Some (if decide (is_Some (params_of settings !! "mc"%string))
           then params_of settings
           else <["mc"%string := CInt 1]> (params_of settings)),
     warnings).
Proof.
  intros Hprog Hwf. unfold _get_cmd, line_of, split.
  rewrite split_settings by done. cbn [tail].
  by rewrite cmd_loop_settings.
Qed.

(** X11. A token that makes the loop raise, for want of a value or with a
    value that is no number though it looks like one, ends the reading:
    the warning is added, the parameters are the settings before the
    token, those after it are lost, and ["mc"] gets no default. *)
Theorem get_cmd_stops_at_bad_token (prog bad more : string)
    (settings : list Setting) (rest warnings : list string) :
  dash_safe prog = true → Forall well_formed settings →
  dash_safe bad = true → token_raises bad →
  (more = EmptyString ∨ ∃ m, more = "--" +:+ m) →
  _get_cmd (Some ((line_of prog settings +:+ "--" +:+ bad +:+ more) :: rest)) warnings
  = (Some (params_of settings), warnings ++ [cmd_warning]).
Proof.
  intros Hprog Hwf Hbad Hraises Hmore. unfold _get_cmd, line_of, split.
  rewrite str_app_assoc, split_settings_more by done. cbn [tail].
  rewrite cmd_loop_app, cmd_loop_settings by done. cbn [snd fst].
  assert (∃ others, split (bad +:+ more) "--" = bad :: others) as [others ->].
  { unfold split. destruct Hmore as [-> | [m ->]].
    - rewrite str_app_nil_r, split_dashes_last by done. eauto.
    - rewrite split_dashes_first by done. eauto. }
  cbn [cmd_loop]. unfold token_raises in Hraises.
  destruct (cmd_setting bad) as [|key [|value tl]]; [done | done |].
  by rewrite Hraises.
Qed.

(** ** Concrete command lines *)

Lemma ex_settings_well_formed : Forall well_formed ex_settings.
Proof. repeat constructor. Qed.

Lemma get_cmd_reads_settings_witness :
  _get_cmd (Some [line_of "dsr config.json " ex_settings]) []
  = (Some {[ "mc"%string := CInt 10; "lr"%string := CFloat false 5 1;
             "name"%string := CStr "Nguyen-1" ]}, []).
Proof.
  rewrite (get_cmd_reads_settings "dsr config.json " ex_settings [] []).
  - reflexivity.
  - reflexivity.
  - exact ex_settings_well_formed.
Defined.

Lemma get_cmd_stops_at_bad_token_witness :
  _get_cmd (Some [line_of "dsr config.json " (take 1 ex_settings)
                  +:+ "--" +:+ "verbose " +:+ "--seed=3"]) []
  = (Some {[ "mc"%string := CInt 10 ]}, [cmd_warning]).
Proof.
  rewrite (get_cmd_stops_at_bad_token "dsr config.json " "verbose " "--seed=3"
             (take 1 ex_settings) [] []).
  - reflexivity.
  - reflexivity.
  - repeat constructor.
  - reflexivity.
  - exact I.
  - right. by exists "seed=3"%string.
Defined.

Example date_is_refused : _get_correct_type "2020-01-01" = None.
Proof. reflexivity. Qed.

Example exponent_stays_text : _get_correct_type "1e-3" = Some (CStr "1e-3").
Proof. reflexivity. Qed.

(** * The first missing key *)

Lemma comprehension_raise_at {A B} (f : A → result B) (pre post : list A) (x : A)
    (e : PyErr) :
  returns (comprehension f pre) → f x = Raise e →
  comprehension f (pre ++ x :: post) = Raise e.
Proof.
  intros Hpre Hx. induction pre as [|y pre IH]; simpl.
  - by rewrite Hx.
  - destruct Hpre as [ys Hys]. simpl in Hys. apply bind_Ok in Hys as (v & Hv & Hys).
    apply bind_Ok in Hys as (vs & Hvs & _). rewrite Hv. simpl.
    rewrite IH by (by exists vs). done.
Qed.

(** X12. The exception of a failed construction names the first key that
    is missing: ['TERMINAL'] when there is an input variable and the
    vocabulary lacks it, whatever the functions; otherwise the lower-cased
    name of the first function, in the order of the function set, that
    the vocabulary lacks. *)
Theorem construction_names_first_missing_key (vocab : gmap string Z) (n : Z) :
  (∀ fs, (0 < n)%Z → vocab !! "TERMINAL"%string = None →
     set_lib_to_lib vocab fs n = Raise (KeyError "TERMINAL")) ∧
  (∀ pre func post,
     ((0 < n)%Z → is_Some (vocab !! "TERMINAL"%string)) →
     Forall (λ f, is_Some (vocab !! lower f)) pre →
     vocab !! lower func = None →
     set_lib_to_lib vocab (pre ++ func :: post) n = Raise (KeyError (lower func))).
Proof.
  split.
  - intros fs Hn Hnone. unfold set_lib_to_lib.
    destruct (Z.to_nat n) as [|k] eqn:E; [lia |]. cbn [seq].
    rewrite comprehension_cons.
    assert (getitem vocab "TERMINAL" = Raise (KeyError "TERMINAL")) as ->
      by (unfold getitem; by rewrite Hnone).
    done.
  - intros pre func post Hterm Hpre Hnone. unfold set_lib_to_lib.
    assert (returns (comprehension (λ _ : nat, getitem vocab "TERMINAL")
                       (seq 0 (Z.to_nat n)))) as [ts ->].
    { apply comprehension_returns. apply Forall_forall. intros i Hi.
      destruct Hterm as [t Ht].
      - destruct (Z.to_nat n) eqn:E; [by apply elem_of_nil in Hi | lia].
      - exists t. by apply getitem_Ok. }
    rewrite (comprehension_raise_at _ pre post func (KeyError (lower func))).
    + done.
    + apply comprehension_returns. eapply Forall_impl; [exact Hpre |].
      intros f [v Hv]. exists v. by apply getitem_Ok.
    + unfold getitem. by rewrite Hnone.
Qed.
